(** * tinybaker: the sequence combinator

    A shallow embedding of [tinybaker/combinators/sequence.py] and the
    properties of its lexical scope resolver, interface determiner,
    execution planner and runner.

    Python sets are [gset string], dictionaries are [gmap string _];
    Python integers are [Z].  Raising is the [Raise] constructor of
    [result].  Everything a run does to the outside (drawing a UUID,
    probing and creating a directory, building a child step) is a
    transition on an abstract [World]. *)

From Stdlib Require Import ZArith NArith Ascii String List.
From stdpp Require Import base option list gmap sets strings fin_maps.

#[local] Set Warnings "-clear-no-such-hyp".
Local Open Scope string_scope.
#[local] Arguments String.append !_ _ / : simpl nomatch.

(** ** Exceptions and fallible results *)

(** Modelled from the spec: the module [tinybaker.exceptions], which
    [sequence.py] imports [BakerError] and [TagConflictError] from.  The
    composition errors of section 7 are [BakerError]; the named
    specialization for a conflicting tag is [TagConflictError].  Anything
    else that is raised (by a child step, or by Python itself) is a
    [StepError] carrying the class name and the message. *)
Inductive exception : Type :=
| BakerError (msg : string)
| TagConflictError (msg : string)
| StepError (cls msg : string).

Inductive result (A : Type) : Type :=
| Ok (a : A)
| Raise (e : exception).
Arguments Ok {A} a.
Arguments Raise {A} e.

Definition rbind {A B} (r : result A) (k : A → result B) : result B :=
  match r with
  | Ok a => k a
  | Raise e => Raise e
  end.

#[global] Instance result_bind : MBind result := λ A B k r, rbind r k.
#[global] Instance result_ret : MRet result := λ A a, Ok a.

(** A [for] loop whose body may raise: the first exception ends the loop. *)
Fixpoint for_each {A S} (body : S → A → result S) (s : S) (l : list A)
  : result S :=
  match l with
  | [] => Ok s
  | x :: l' => s' ← body s x; for_each body s' l'
  end.

(** [sep.join(items)] *)
Definition join (sep : string) (items : list string) : string :=
  String.concat sep items.

(** ** The runtime a run executes against *)

(** [uuid.UUID]: a 128-bit integer. *)
Record UUID : Type := mkUUID {
  uuid_int : N;
  uuid_int_bound : bool_decide (uuid_int < 2 ^ 128)%N
}.

Definition hex_char (d : N) : ascii :=
  match d with
  | 0%N => "0" | 1%N => "1" | 2%N => "2" | 3%N => "3"
  | 4%N => "4" | 5%N => "5" | 6%N => "6" | 7%N => "7"
  | 8%N => "8" | 9%N => "9" | 10%N => "a" | 11%N => "b"
  | 12%N => "c" | 13%N => "d" | 14%N => "e" | _ => "f"
  end%char.

(** The value of a hexadecimal digit, the inverse of [hex_char]. *)
Definition hex_val (c : ascii) : N :=
  match c with
  | "0" => 0 | "1" => 1 | "2" => 2 | "3" => 3 | "4" => 4 | "5" => 5
  | "6" => 6 | "7" => 7 | "8" => 8 | "9" => 9 | "a" => 10 | "b" => 11
  | "c" => 12 | "d" => 13 | "e" => 14 | _ => 15
  end%char%N.

(** ['%0nx' % x]: the [n] low hexadecimal digits of [x], most significant
    first. *)
Fixpoint hex_digits (n : nat) (x : N) : list ascii :=
  match n with
  | O => []
  | S k => hex_digits k (x / 16) ++ [hex_char (x mod 16)]
  end.

(** 32 hexadecimal digits grouped 8-4-4-4-12. *)
Definition uuid_groups (h : list ascii) : list ascii :=
  take 8 h ++ "-"%char :: take 4 (drop 8 h) ++ "-"%char ::
  take 4 (drop 12 h) ++ "-"%char :: take 4 (drop 16 h) ++ "-"%char ::
  drop 20 h.

(** [str(u)], which is what ["{}".format(u)] inserts. *)
Definition uuid_str (u : UUID) : string :=
  string_of_list_ascii (uuid_groups (hex_digits 32 (uuid_int u))).

(** What the interpreter and the operating system contribute: [uuid4()],
    [os.path.exists] and [os.mkdir] act on the world, and [set_iter] is
    the order in which a [for] loop or a comprehension visits a set.
    Python does not specify that order, so it is any enumeration of the
    elements. *)
Class Runtime : Type := {
  World : Type;
  uuid4 : World → UUID * World;
  os_path_exists : string → World → bool;
  os_mkdir : string → World → World;
  set_iter : gset string → list string;
  set_iter_perm : ∀ X : gset string, set_iter X ≡ₚ elements X
}.

(** ** Steps *)

(** Modelled from the spec: the file objects that the base class keeps in
    [self.input_files] and [self.output_files]; the combinator reads their
    [path]. *)
Record FileRef : Type := mkFileRef { path : string }.

Section Steps.
Context `{Runtime}.

(** Modelled from the spec: a class derived from the base class
    [StepDefinition] of [tinybaker.step_definition].  Section 6: a step
    exposes a declared input tag set and output tag set, fixed per step
    definition; [script] is what an instance does with its [input_files]
    and [output_files]. *)
Record StepDefinition : Type := mkStepDefinition {
  input_file_set : gset string;
  output_file_set : gset string;
  script : gmap string FileRef → gmap string FileRef →
           World → World * option exception
}.

(** Modelled from the spec: the constructor of the base class,
    [step(input_paths=..., output_paths=...)].  Section 6: a step is
    constructible from two mappings, tag to input path and tag to output
    path. *)
Record StepInstance : Type := mkStepInstance {
  definition : StepDefinition;
  input_paths : gmap string string;
  output_paths : gmap string string
}.

(** [instance.build(overwrite=...)] of the base class.  It is defined
    outside [sequence.py] and is left open: every property below holds for
    any [build]. *)
Class StepBase : Type := {
  build : StepInstance → bool → World → World * option exception
}.
Context `{!StepBase}.

(** *** Lexical scope resolver *)

Definition inc_ref_count (ref : Z * Z) : Z * Z := (ref.1, (ref.2 + 1)%Z).

Definition scope_input (lexical_scope : gmap string (Z * Z))
    (input_tag : string) : gmap string (Z * Z) :=
  match lexical_scope !! input_tag with
  | None => <[input_tag := ((-1)%Z, 1%Z)]> lexical_scope
  | Some ref => <[input_tag := inc_ref_count ref]> lexical_scope
  end.

Definition scope_output (i : Z) (lexical_scope : gmap string (Z * Z))
    (output_tag : string) : result (gmap string (Z * Z)) :=
  match lexical_scope !! output_tag with
  | Some _ =>
      Raise (BakerError
        ("Multiple steps in sequence generate output tag " ++ output_tag))
  | None => Ok (<[output_tag := (i, 0%Z)]> lexical_scope)
  end.

Definition scope_step (i : Z) (lexical_scope : gmap string (Z * Z))
    (step : StepDefinition) : result (gmap string (Z * Z)) :=
  for_each (scope_output i)
    (foldl scope_input lexical_scope (set_iter (input_file_set step)))
    (set_iter (output_file_set step)).

Fixpoint scope_steps (i : Z) (lexical_scope : gmap string (Z * Z))
    (steps : list StepDefinition) : result (gmap string (Z * Z)) :=
  match steps with
  | [] => Ok lexical_scope
  | step :: rest =>
      lexical_scope' ← scope_step i lexical_scope step;
      scope_steps (i + 1)%Z lexical_scope' rest
  end.

Definition _build_lexical_scope (steps : list StepDefinition)
  : result (gmap string (Z * Z)) :=
  scope_steps 0%Z ∅ steps.

(** *** Interface determiner *)

Definition _determine_sequence_interface (seq_steps : list StepDefinition)
    (exposed_intermediates : gset string)
  : result (gset string * gset string) :=
  lexical_scope ← _build_lexical_scope seq_steps;
  let seq_input_file_set : gset string :=
    dom (filter (λ kv, kv.2.1 = (-1)%Z) lexical_scope) in
  let seq_output_file_set : gset string :=
    dom (filter (λ kv, kv.2.2 = 0%Z) lexical_scope) in
  let non_inputs := dom lexical_scope ∖ seq_input_file_set in
  if decide (size (exposed_intermediates ∖ non_inputs) ≠ 0)
  then
    let items := join ", " (set_iter exposed_intermediates) in
    Raise (BakerError
      ("Attempting to expose non-generated intermediate(s): " ++ items))
  else Ok (seq_input_file_set, seq_output_file_set ∪ exposed_intermediates).

(** *** Execution planner *)

Definition _generate_temp_filename (sid : UUID) (w : World)
  : string * World :=
  let folder := "/tmp/tinybaker-" ++ uuid_str sid in
  let w1 := if os_path_exists folder w then w else os_mkdir folder w in
  let '(u, w2) := uuid4 w1 in
  (folder ++ "/" ++ uuid_str u, w2).

(** [{tag: self._generate_temp_filename(sid) for tag in tags}] *)
Definition generate_paths (sid : UUID) (tags : list string) (w : World)
  : gmap string string * World :=
  foldl (λ acc tag,
           let '(p, w') := _generate_temp_filename sid acc.2 in
           (<[tag := p]> acc.1, w'))
        (∅, w) tags.

(** [d.update(other)]: the entries of [other] win. *)
Definition update (d other : gmap string string) : gmap string string :=
  other ∪ d.

(** [{tag: d[tag] for tag in d if tag in tags}] *)
Definition restrict (d : gmap string string) (tags : gset string)
  : gmap string string :=
  filter (λ kv, kv.1 ∈ tags) d.

(** One round of the planning loop: the instance built for [step], the
    new [prev_output_paths] and the world after the allocations. *)
Definition plan_step (sequence_instance_id : UUID)
    (self_output_file_set : gset string)
    (seq_input_paths seq_output_paths prev_output_paths : gmap string string)
    (step : StepDefinition) (w : World)
  : StepInstance * gmap string string * World :=
  let input_paths_from_sequence :=
    restrict seq_input_paths (input_file_set step) in
  let input_paths_from_prev :=
    restrict prev_output_paths (input_file_set step) in
  let input_paths :=
    update (update ∅ input_paths_from_sequence) input_paths_from_prev in
  let '(generated_output_paths, w') :=
    generate_paths sequence_instance_id
      (set_iter (output_file_set step ∖ self_output_file_set)) w in
  let output_paths_from_sequence :=
    restrict seq_output_paths (output_file_set step) in
  let output_paths :=
    update (update ∅ generated_output_paths) output_paths_from_sequence in
  (mkStepInstance step input_paths output_paths, output_paths, w').

Fixpoint plan_steps (sequence_instance_id : UUID)
    (self_output_file_set : gset string)
    (seq_input_paths seq_output_paths prev_output_paths : gmap string string)
    (steps : list StepDefinition) (w : World)
  : list StepInstance * World :=
  match steps with
  | [] => ([], w)
  | step :: rest =>
      let '(instance, output_paths, w1) :=
        plan_step sequence_instance_id self_output_file_set
          seq_input_paths seq_output_paths prev_output_paths step w in
      let '(instances, w2) :=
        plan_steps sequence_instance_id self_output_file_set
          seq_input_paths seq_output_paths output_paths rest w1 in
      (instance :: instances, w2)
  end.

(** *** Sequence runner *)

(** Phase 2: [for instance in instances: instance.build(overwrite=True)].
    An exception leaves the loop at once; the world stays as the failing
    build left it. *)
Fixpoint run_instances (instances : list StepInstance) (w : World)
  : World * option exception :=
  match instances with
  | [] => (w, None)
  | instance :: rest =>
      match build instance true w with
      | (w', Some e) => (w', Some e)
      | (w', None) => run_instances rest w'
      end
  end.

(** Phase 1 of [Sequence.script], up to the list of instances. *)
Definition build_instances (self_steps : list StepDefinition)
    (self_output_file_set : gset string)
    (input_files output_files : gmap string FileRef) (w : World)
  : list StepInstance * World :=
  let '(sequence_instance_id, w1) := uuid4 w in
  let seq_input_paths := path <$> input_files in
  let seq_output_paths := path <$> output_files in
  plan_steps sequence_instance_id self_output_file_set
    seq_input_paths seq_output_paths ∅ self_steps w1.

(** [Sequence.script] of the class that [sequence] creates; [self_steps]
    and [self_output_file_set] are its class attributes. *)
Definition Sequence_script (self_steps : list StepDefinition)
    (self_output_file_set : gset string)
    (input_files output_files : gmap string FileRef) (w : World)
  : World * option exception :=
  let '(instances, w') :=
    build_instances self_steps self_output_file_set
      input_files output_files w in
  run_instances instances w'.

(** *** The combinator *)

Definition sequence (seq_steps : list StepDefinition)
    (exposed_intermediates : gset string) : result StepDefinition :=
  if decide (length seq_steps < 1)
  then Raise (BakerError "Cannot sequence fewer than 1 event")
  else if decide (length seq_steps = 1)
  then match seq_steps !! 0 with
       | Some step => Ok step
       | None => Raise (StepError "IndexError" "list index out of range")
       end
  else
    _ ← _build_lexical_scope seq_steps;
    interface ← _determine_sequence_interface seq_steps
                  exposed_intermediates;
    let seq_input_file_set := interface.1 in
    let seq_output_file_set := interface.2 in
    Ok (mkStepDefinition seq_input_file_set seq_output_file_set
          (Sequence_script seq_steps seq_output_file_set)).

(** *** Composition over a store of objects

    The caller passes [sequence] a list object and a set object, and
    Python passes them by reference.  To talk about what composition does
    to these objects, the same code is read once more over a store:
    [seq_steps] and [exposed_intermediates] are locations, the dictionary
    [lexical_scope] lives in the store and is updated in place, and every
    set or dictionary the code creates is a new object. *)

Inductive object : Type :=
| ObjSet (s : gset string)
| ObjList (l : list StepDefinition)
| ObjDict (d : gmap string (Z * Z)).

Abbreviation store := (gmap positive object).

(** A computation on the store; an exception leaves the store as it
    is at that point. *)
Definition StoreM (A : Type) : Type := store → result A * store.

#[global] Instance store_bind : MBind StoreM := λ A B k m h,
  match m h with
  | (Ok a, h') => k a h'
  | (Raise e, h') => (Raise e, h')
  end.

#[global] Instance store_ret : MRet StoreM := λ A a h, (Ok a, h).

Definition oraise {A} (e : exception) : StoreM A := λ h, (Raise e, h).

Definition type_error {A} : StoreM A :=
  oraise (StepError "TypeError" "unexpected object").

(** A new object at a location not in use. *)
Definition new (o : object) : StoreM positive :=
  λ h, let l := fresh (dom h) in (Ok l, <[l := o]> h).

Definition get_set (l : positive) : StoreM (gset string) :=
  λ h, match h !! l with
       | Some (ObjSet s) => (Ok s, h)
       | _ => type_error h
       end.

Definition get_list (l : positive) : StoreM (list StepDefinition) :=
  λ h, match h !! l with
       | Some (ObjList steps) => (Ok steps, h)
       | _ => type_error h
       end.

Definition get_dict (l : positive) : StoreM (gmap string (Z * Z)) :=
  λ h, match h !! l with
       | Some (ObjDict d) => (Ok d, h)
       | _ => type_error h
       end.

(** [d[key] = value] on the dictionary object at [l]. *)
Definition dict_setitem (l : positive) (key : string) (value : Z * Z)
  : StoreM () :=
  λ h, match h !! l with
       | Some (ObjDict d) => (Ok (), <[l := ObjDict (<[key := value]> d)]> h)
       | _ => type_error h
       end.

(** [steps[i]] *)
Definition list_getitem (l : positive) (i : nat) : StoreM StepDefinition :=
  steps ← get_list l;
  match steps !! i with
  | Some step => mret step
  | None => oraise (StepError "IndexError" "list index out of range")
  end.

Fixpoint o_for {A} (body : A → StoreM ()) (l : list A) : StoreM () :=
  match l with
  | [] => mret ()
  | x :: l' => body x ≫= λ _, o_for body l'
  end.

Definition o_scope_input (lexical_scope : positive) (input_tag : string)
  : StoreM () :=
  d ← get_dict lexical_scope;
  match d !! input_tag with
  | None => dict_setitem lexical_scope input_tag ((-1)%Z, 1%Z)
  | Some ref => dict_setitem lexical_scope input_tag (inc_ref_count ref)
  end.

Definition o_scope_output (lexical_scope : positive) (i : Z)
    (output_tag : string) : StoreM () :=
  d ← get_dict lexical_scope;
  match d !! output_tag with
  | Some _ =>
      oraise (BakerError
        ("Multiple steps in sequence generate output tag " ++ output_tag))
  | None => dict_setitem lexical_scope output_tag (i, 0%Z)
  end.

Definition o_scope_step (steps lexical_scope : positive) (i : nat)
  : StoreM () :=
  step ← list_getitem steps i;
  o_for (o_scope_input lexical_scope) (set_iter (input_file_set step)) ≫= λ _,
  o_for (o_scope_output lexical_scope (Z.of_nat i))
    (set_iter (output_file_set step)).

Definition o_build_lexical_scope (steps : positive) : StoreM positive :=
  lexical_scope ← new (ObjDict ∅);
  steps_now ← get_list steps;
  o_for (o_scope_step steps lexical_scope) (seq 0 (length steps_now)) ≫= λ _,
  mret lexical_scope.

Definition o_determine_sequence_interface (seq_steps : positive)
    (exposed_intermediates : positive) : StoreM (positive * positive) :=
  lexical_scope ← o_build_lexical_scope seq_steps;
  d ← get_dict lexical_scope;
  seq_input_file_set ← new (ObjSet (dom (filter (λ kv, kv.2.1 = (-1)%Z) d)));
  seq_output_file_set ← new (ObjSet (dom (filter (λ kv, kv.2.2 = 0%Z) d)));
  keys ← new (ObjSet (dom d));
  keys_now ← get_set keys;
  inputs ← get_set seq_input_file_set;
  non_inputs ← new (ObjSet (keys_now ∖ inputs));
  exposed ← get_set exposed_intermediates;
  non_inputs_now ← get_set non_inputs;
  difference ← new (ObjSet (exposed ∖ non_inputs_now));
  difference_now ← get_set difference;
  if decide (size difference_now ≠ 0)
  then
    exposed_now ← get_set exposed_intermediates;
    oraise (BakerError
      ("Attempting to expose non-generated intermediate(s): "
       ++ join ", " (set_iter exposed_now)))
  else
    outputs ← get_set seq_output_file_set;
    exposed_now ← get_set exposed_intermediates;
    seq_output_file_set' ← new (ObjSet (outputs ∪ exposed_now));
    mret (seq_input_file_set, seq_output_file_set').

(** The class [sequence] returns is read off the store when it is
    created. *)
Definition o_sequence (seq_steps : positive)
    (exposed_intermediates : positive) : StoreM StepDefinition :=
  steps_now ← get_list seq_steps;
  if decide (length steps_now < 1)
  then oraise (BakerError "Cannot sequence fewer than 1 event")
  else if decide (length steps_now = 1)
  then list_getitem seq_steps 0
  else
    o_build_lexical_scope seq_steps ≫= λ _,
    interface ← o_determine_sequence_interface seq_steps
                  exposed_intermediates;
    seq_input_file_set ← get_set interface.1;
    seq_output_file_set ← get_set interface.2;
    steps ← get_list seq_steps;
    mret (mkStepDefinition seq_input_file_set seq_output_file_set
            (Sequence_script steps seq_output_file_set)).

(** Successive calls [sequence(steps)] with the second argument left
    out: each call receives the one set object that was created for the
    default value when [sequence] was defined. *)
Fixpoint o_calls (default : positive) (calls : list positive) (h : store)
  : list (result StepDefinition) * store :=
  match calls with
  | [] => ([], h)
  | seq_steps :: rest =>
      let '(r, h1) := o_sequence seq_steps default h in
      let '(rs, h2) := o_calls default rest h1 in
      (r :: rs, h2)
  end.

End Steps.

(** ** Vocabulary of the properties *)

Section Vocabulary.
Context `{Runtime} `{!StepBase}.

Implicit Types (steps : list StepDefinition) (step : StepDefinition).
Implicit Types (scope : gmap string (Z * Z)) (t tag : string).

(** The entry of a tag after one more step has read it. *)
Definition consumed (old : option (Z * Z)) : Z * Z :=
  match old with
  | None => ((-1)%Z, 1%Z)
  | Some ref => inc_ref_count ref
  end.

(** The text of the error of a conflict on [t]. *)
Definition conflict_message (t : string) : string :=
  "Multiple steps in sequence generate output tag " ++ t.

(** Some step of [steps] reads, respectively writes, the tag [t]. *)
Definition consumed_by steps t : Prop :=
  ∃ step, step ∈ steps ∧ t ∈ input_file_set step.

Definition produced_by steps t : Prop :=
  ∃ step, step ∈ steps ∧ t ∈ output_file_set step.

(** The number of steps that read [t]. *)
Definition consumers t steps : nat :=
  length (filter (λ step, t ∈ input_file_set step) steps).

(** The scope after the steps [past] have been processed: its keys are
    the tags seen so far, the origin is -1 for a tag no step produces and
    the index of the producing step otherwise, and the reference count
    is the number of consuming steps. *)
Record scope_inv (past : list StepDefinition) scope : Prop := {
  inv_dom : ∀ t, is_Some (scope !! t) ↔ consumed_by past t ∨ produced_by past t;
  inv_origin : ∀ t ref, scope !! t = Some ref →
    (ref.1 = (-1)%Z ∧ ¬ produced_by past t) ∨
    (∃ k step, ref.1 = Z.of_nat k ∧ past !! k = Some step ∧
               t ∈ output_file_set step);
  inv_count : ∀ t ref, scope !! t = Some ref →
    ref.2 = Z.of_nat (consumers t past)
}.

(** [t] is an output tag of [step] that is already in scope when the
    outputs of [step] are registered: an input of [step] itself, or an
    input or output of one of the steps [past] before it. *)
Definition conflict_at (past : list StepDefinition) step t : Prop :=
  t ∈ output_file_set step ∧
  (t ∈ input_file_set step ∨ consumed_by past t ∨ produced_by past t).

(** A step list has a conflict when some step declares an output tag
    that is already in scope at that point. *)
Definition has_conflict steps : Prop :=
  ∃ pre step post t,
    steps = (pre ++ step :: post)%list ∧ conflict_at pre step t.

(** The tags of origin -1, and the tags of reference count 0. *)
Definition external_tags scope : gset string :=
  dom (filter (λ kv : string * (Z * Z), kv.2.1 = (-1)%Z) scope).

Definition unreferenced_tags scope : gset string :=
  dom (filter (λ kv : string * (Z * Z), kv.2.2 = 0%Z) scope).

(** The text of the error of a rejected exposure. *)
Definition expose_message (items : string) : string :=
  "Attempting to expose non-generated intermediate(s): " ++ items.

(** An exposed tag the determiner rejects: unknown to the scope, or of
    external origin. *)
Definition offending scope (exposed : gset string) t : Prop :=
  t ∈ exposed ∧
  (scope !! t = None ∨ ∃ ref, scope !! t = Some ref ∧ ref.1 = (-1)%Z).

(** The message of an exception, whatever its class. *)
Definition message (e : exception) : string :=
  match e with
  | BakerError msg | TagConflictError msg | StepError _ msg => msg
  end.

(** The temporary folder of the run [sid]. *)
Definition temp_folder (sid : UUID) : string :=
  "/tmp/tinybaker-" ++ uuid_str sid.

(** A path that a call of [_generate_temp_filename] returned for the
    run [sid]. *)
Definition allocated (sid : UUID) (p : string) : Prop :=
  ∃ w w' : World, _generate_temp_filename sid w = (p, w').

(** [prev_output_paths] when the loop reaches step [i]. *)
Definition preceding (prev : gmap string string)
    (instances : list StepInstance) (i : nat) : gmap string string :=
  match i with
  | O => prev
  | S j => match instances !! j with
           | Some instance => output_paths instance
           | None => ∅
           end
  end.

(** [builds_in_order instances w w']: starting in [w], the instances
    are built one after the other, each on the world its predecessor
    left and each without raising, and the last one leaves [w']. *)
Inductive builds_in_order : list StepInstance → World → World → Prop :=
| builds_nil w : builds_in_order [] w w
| builds_cons instance rest w w1 w2 :
    build instance true w = (w1, None) →
    builds_in_order rest w1 w2 →
    builds_in_order (instance :: rest) w w2.

(** The number of temporary files a run allocates: one for each output
    tag of a step that is not in the output set of the sequence. *)
Definition temp_count (out_set : gset string) steps : nat :=
  sum_list ((λ step, size (output_file_set step ∖ out_set)) <$> steps).



End Vocabulary.

(** ** A reference runtime

    A deterministic runtime on which the definitions evaluate: the
    filesystem is the set of directories created so far, the n-th UUID
    drawn has the integer value n, sets are enumerated by [elements], and
    every build appends to a log. *)
Module Reference.

Record world : Type := mkWorld {
  directories : gset string;
  draws : N;
  log : list string
}.

Definition uuid_of (n : N) : UUID :=
  match decide (n < 2 ^ 128)%N with
  | left Hn => mkUUID n (bool_decide_pack _ Hn)
  | right _ => mkUUID 0 I
  end.

#[export] Instance runtime : Runtime := {|
  World := world;
  uuid4 := λ w,
    (uuid_of (draws w),
     mkWorld (directories w) (draws w + 1)%N (log w));
  os_path_exists := λ d w, bool_decide (d ∈ directories w);
  os_mkdir := λ d w, mkWorld ({[d]} ∪ directories w) (draws w) (log w);
  set_iter := elements;
  set_iter_perm := λ X, reflexivity (elements X)
|}.

(** [build] runs the instance's own script on its files. *)
#[export] Instance step_base : StepBase := {|
  build := λ instance overwrite w,
    script (definition instance)
      (mkFileRef <$> input_paths instance)
      (mkFileRef <$> output_paths instance) w
|}.

Definition initial : world := mkWorld ∅ 0 [].

(** A leaf step whose build records its name. *)
Definition logging_step (name : string) (ins outs : list string)
  : StepDefinition :=
  mkStepDefinition (list_to_set ins) (list_to_set outs)
    (λ input_files output_files w,
       (mkWorld (directories w) (draws w) (log w ++ [name]), None)).

(** A leaf step whose build records its name and raises. *)
Definition failing_step (name : string) (ins outs : list string)
  : StepDefinition :=
  mkStepDefinition (list_to_set ins) (list_to_set outs)
    (λ input_files output_files w,
       (mkWorld (directories w) (draws w) (log w ++ [name]),
        Some (StepError name "boom"))).

(** raw -> A -> clean -> B -> report *)
Definition step_A := logging_step "A" ["raw"] ["clean"].
Definition step_B := logging_step "B" ["clean"] ["report"].

(** clean -> M -> mid, and a last step that reads clean and mid: clean
    is produced two steps before it is read again. *)
Definition step_M := logging_step "M" ["clean"] ["mid"].
Definition step_C := logging_step "C" ["clean"; "mid"] ["report"].

(** mid -> D -> report, and a step in the middle whose build raises. *)
Definition step_D := logging_step "D" ["mid"] ["report"].
Definition step_F := failing_step "F" ["clean"] ["mid"].

(** Two producers of x, and a step that reads and writes x. *)
Definition step_X1 := logging_step "X1" [] ["x"].
Definition step_X2 := logging_step "X2" [] ["x"].


Definition files_in : gmap string FileRef :=
  {["raw" := mkFileRef "/d/raw.csv"]}.
Definition files_out : gmap string FileRef :=
  {["report" := mkFileRef "/d/out.csv"]}.

(** Input files that also name a path for clean, which A produces. *)
Definition files_in_clean : gmap string FileRef :=
  {["raw" := mkFileRef "/d/raw.csv"; "clean" := mkFileRef "/d/EXT_clean.csv"]}.
Definition files_out_exposed : gmap string FileRef :=
  {["report" := mkFileRef "/d/out.csv"; "clean" := mkFileRef "/d/clean.csv"]}.

(** The classes that composing A and B yields, without and with clean
    exposed. *)
Definition seq_AB : StepDefinition :=
  mkStepDefinition {["raw"]} {["report"]}
    (Sequence_script [step_A; step_B] {["report"]}).
Definition seq_AB_exposed : StepDefinition :=
  mkStepDefinition {["raw"]} ({["report"]} ∪ {["clean"]})
    (Sequence_script [step_A; step_B] ({["report"]} ∪ {["clean"]})).
Definition seq_AFD : StepDefinition :=
  mkStepDefinition {["raw"]} {["report"]}
    (Sequence_script [step_A; step_F; step_D] {["report"]}).

Definition scope_AB : gmap string (Z * Z) :=
  {["raw" := ((-1)%Z, 1%Z); "clean" := (0%Z, 1%Z); "report" := (1%Z, 0%Z)]}.

(** The first temporary path of the run that starts in [initial]. *)
Definition temp_1 : string :=
  "/tmp/tinybaker-00000000-0000-0000-0000-000000000000/00000000-0000-0000-0000-000000000001".

(** A store with the list [A, B] at 1 and the empty set at 2. *)
Definition store_AB : gmap positive object :=
  {[1%positive := ObjList [step_A; step_B]; 2%positive := ObjSet ∅]}.

(** The plan of a run of [seq_AB] and of [seq_AB_exposed]. *)
Definition plan_AB : list StepInstance * world :=
  build_instances [step_A; step_B] (output_file_set seq_AB)
    files_in files_out initial.
Definition plan_AB_exposed : list StepInstance * world :=
  build_instances [step_A; step_B] (output_file_set seq_AB_exposed)
    files_in files_out_exposed initial.

(** A second run, in a world where seven UUIDs have been drawn. *)
Definition later : world := mkWorld ∅ 7 [].
Definition plan_AB_later : list StepInstance * world :=
  build_instances [step_A; step_B] (output_file_set seq_AB)
    files_in files_out later.

End Reference.

(** * Properties *)

(** ** Generic facts *)

Lemma rbind_Ok {A B} (r : result A) (k : A → result B) (b : B) :
  (r ≫= k) = Ok b → ∃ a, r = Ok a ∧ k a = Ok b.
Proof. destruct r as [a|e]; simpl; [eauto | discriminate]. Qed.

Lemma string_app_assoc (s1 s2 s3 : string) :
  (s1 ++ s2) ++ s3 = s1 ++ (s2 ++ s3).
Proof. induction s1 as [|c s1 IH]; simpl; [done | by rewrite IH]. Qed.

Lemma string_app_inv_head (s t1 t2 : string) : s ++ t1 = s ++ t2 → t1 = t2.
Proof. induction s as [|c s IH]; simpl; [done | intros [=]; auto]. Qed.

(** Two concatenations that agree and whose heads have the same length
    agree part by part. *)
Lemma string_app_inj_length (s1 s2 t1 t2 : string) :
  String.length s1 = String.length s2 →
  s1 ++ t1 = s2 ++ t2 → s1 = s2 ∧ t1 = t2.
Proof.
  revert s2. induction s1 as [|c s1 IH]; intros [|d s2]; simpl; try done.
  intros [= Hlen] [= -> Happ]. destruct (IH _ Hlen Happ) as [-> ->]. done.
Qed.

(** Every item of a joined string occurs in it. *)
Lemma join_occurs (sep : string) (items : list string) (t : string) :
  t ∈ items → ∃ before after, join sep items = before ++ t ++ after.
Proof.
  unfold join. induction items as [|x items IH]; intros Hin.
  - by apply elem_of_nil in Hin.
  - apply elem_of_cons in Hin as [->|Hin].
    + destruct items as [|y items]; simpl.
      * exists "", "". simpl. clear. induction x; simpl; congruence.
      * exists "", (sep ++ String.concat sep (y :: items)). done.
    + destruct (IH Hin) as (before & after & Heq).
      destruct items as [|y items]; [by apply elem_of_nil in Hin|].
      exists (x ++ sep ++ before), after.
      change (String.concat sep (x :: y :: items))
        with (x ++ sep ++ String.concat sep (y :: items)).
      rewrite Heq. by rewrite !string_app_assoc.
Qed.

(** ** The text of a UUID *)

Lemma hex_val_char (d : N) : (d < 16)%N → hex_val (hex_char d) = d.
Proof.
  intros Hd. rewrite <-(N2Nat.id d).
  assert (N.to_nat d < 16)%nat as Hn by lia. revert Hn.
  generalize (N.to_nat d). intros n Hn.
  do 16 (destruct n as [|n]; [reflexivity|]). lia.
Qed.

Lemma length_hex_digits (n : nat) (x : N) : length (hex_digits n x) = n.
Proof.
  revert x. induction n as [|n IH]; intros x; simpl; [done|].
  rewrite length_app, IH. simpl. lia.
Qed.

Lemma hex_digits_inj (n : nat) (x y : N) :
  (x < 16 ^ N.of_nat n)%N → (y < 16 ^ N.of_nat n)%N →
  hex_digits n x = hex_digits n y → x = y.
Proof.
  revert x y. induction n as [|n IH]; intros x y Hx Hy.
  - simpl in Hx, Hy. lia.
  - rewrite Nat2N.inj_succ, N.pow_succ_r' in Hx, Hy. cbn [hex_digits].
    intros [Hhigh Hlow]%app_inj_2; [|done].
    injection Hlow as Hlow. apply (f_equal hex_val) in Hlow.
    rewrite !hex_val_char in Hlow by (apply N.mod_lt; lia).
    apply IH in Hhigh; [|apply N.Div0.div_lt_upper_bound; lia..].
    rewrite (N.div_mod' x 16), (N.div_mod' y 16). congruence.
Qed.

Lemma length_string_of_list_ascii (l : list ascii) :
  String.length (string_of_list_ascii l) = length l.
Proof. induction l as [|c l IH]; simpl; [done | by rewrite IH]. Qed.

Lemma string_of_list_ascii_inj (l1 l2 : list ascii) :
  string_of_list_ascii l1 = string_of_list_ascii l2 → l1 = l2.
Proof.
  intros Heq. apply (f_equal list_ascii_of_string) in Heq.
  by rewrite !list_ascii_of_string_of_list_ascii in Heq.
Qed.

Lemma length_uuid_groups (h : list ascii) :
  length h = 32 → length (uuid_groups h) = 36.
Proof.
  intros Hlen. unfold uuid_groups.
  repeat (rewrite ?length_app, ?length_cons, ?length_take, ?length_drop).
  lia.
Qed.

Lemma uuid_groups_inj (h1 h2 : list ascii) :
  length h1 = 32 → length h2 = 32 →
  uuid_groups h1 = uuid_groups h2 → h1 = h2.
Proof.
  intros Hl1 Hl2. unfold uuid_groups.
  intros [H8 Hrest]%app_inj_1; [|rewrite !length_take; lia].
  injection Hrest as Hrest.
  apply app_inj_1 in Hrest as [H12 Hrest];
    [|rewrite !length_take, !length_drop; lia].
  injection Hrest as Hrest.
  apply app_inj_1 in Hrest as [H16 Hrest];
    [|rewrite !length_take, !length_drop; lia].
  injection Hrest as Hrest.
  apply app_inj_1 in Hrest as [H20 Hrest];
    [|rewrite !length_take, !length_drop; lia].
  injection Hrest as Hrest.
  rewrite <-(take_drop 8 h1), <-(take_drop 8 h2), H8. f_equal.
  rewrite <-(take_drop 4 (drop 8 h1)), <-(take_drop 4 (drop 8 h2)), H12.
  f_equal. rewrite !drop_drop. simpl.
  rewrite <-(take_drop 4 (drop 12 h1)), <-(take_drop 4 (drop 12 h2)), H16.
  f_equal. rewrite !drop_drop. simpl.
  rewrite <-(take_drop 4 (drop 16 h1)), <-(take_drop 4 (drop 16 h2)), H20.
  f_equal. rewrite !drop_drop. simpl. done.
Qed.

Lemma uuid_str_length (u : UUID) : String.length (uuid_str u) = 36.
Proof.
  unfold uuid_str. rewrite length_string_of_list_ascii.
  apply length_uuid_groups, length_hex_digits.
Qed.

Lemma uuid_str_inj (u1 u2 : UUID) : uuid_str u1 = uuid_str u2 → u1 = u2.
Proof.
  unfold uuid_str. intros Heq%string_of_list_ascii_inj.
  apply uuid_groups_inj in Heq; [|apply length_hex_digits..].
  destruct u1 as [x Hx], u2 as [y Hy]. cbn [uuid_int] in Heq.
  assert (16 ^ N.of_nat 32 = 2 ^ 128)%N as Hpow by (vm_compute; reflexivity).
  assert (x = y) as ->.
  { apply (hex_digits_inj 32); [| |done]; rewrite Hpow.
    - by apply bool_decide_unpack in Hx.
    - by apply bool_decide_unpack in Hy. }
  f_equal. apply proof_irrel.
Qed.

Section Properties.
Context `{Runtime} `{!StepBase}.

Implicit Types (steps : list StepDefinition) (step : StepDefinition).
Implicit Types (scope : gmap string (Z * Z)) (t tag : string).

(** *** Set iteration *)

Lemma elem_of_set_iter (X : gset string) t : t ∈ set_iter X ↔ t ∈ X.
Proof. by rewrite (set_iter_perm X), elem_of_elements. Qed.

Lemma NoDup_set_iter (X : gset string) : NoDup (set_iter X).
Proof. rewrite (set_iter_perm X). apply NoDup_elements. Qed.

(** *** One step of the scope resolver *)

Lemma scope_input_lookup scope a t :
  scope_input scope a !! t
  = if decide (t = a) then Some (consumed (scope !! a)) else scope !! t.
Proof.
  unfold scope_input, consumed.
  destruct (decide (t = a)) as [->|Hne].
  - destruct (scope !! a); by rewrite lookup_insert_eq.
  - destruct (scope !! a); by rewrite lookup_insert_ne.
Qed.

Lemma foldl_scope_input_lookup (l : list string) scope t :
  NoDup l →
  foldl scope_input scope l !! t
  = if decide (t ∈ l) then Some (consumed (scope !! t)) else scope !! t.
Proof.
  revert scope. induction l as [|a l IH]; intros scope Hnd; cbn [foldl].
  - rewrite decide_False; [done | apply not_elem_of_nil].
  - apply NoDup_cons in Hnd as [Ha Hnd]. rewrite (IH _ Hnd).
    rewrite !scope_input_lookup.
    destruct (decide (t = a)) as [->|Hne].
    + rewrite decide_False by done. rewrite decide_True by left. done.
    + destruct (decide (t ∈ l)) as [Hin|Hin].
      * rewrite decide_True by (by right). done.
      * rewrite decide_False; [done|].
        intros [?|?]%elem_of_cons; done.
Qed.

Lemma for_each_scope_output_Ok (i : Z) (l : list string) scope scope' :
  NoDup l →
  for_each (scope_output i) scope l = Ok scope' →
  (∀ t, t ∈ l → scope !! t = None) ∧
  (∀ t, scope' !! t = if decide (t ∈ l) then Some (i, 0%Z) else scope !! t).
Proof.
  revert scope. induction l as [|a l IH]; intros scope Hnd; cbn [for_each].
  - intros [= <-]. split; [by intros t ?%elem_of_nil|].
    intros t. rewrite decide_False; [done | apply not_elem_of_nil].
  - apply NoDup_cons in Hnd as [Ha Hnd].
    intros (scope1 & Hout & Hrest)%rbind_Ok. unfold scope_output in Hout.
    destruct (scope !! a) eqn:Hsa; [done|]. injection Hout as <-.
    destruct (IH _ Hnd Hrest) as [Hfree Hlook]. split.
    + intros t [->|Hin]%elem_of_cons; [done|].
      specialize (Hfree t Hin). rewrite lookup_insert_ne in Hfree; [done|].
      by intros <-.
    + intros t. rewrite Hlook.
      destruct (decide (t = a)) as [->|Hne].
      * rewrite decide_False by done. rewrite decide_True by left.
        by rewrite lookup_insert_eq.
      * rewrite lookup_insert_ne by done.
        destruct (decide (t ∈ l)) as [Hin|Hin].
        -- rewrite decide_True by (by right). done.
        -- rewrite decide_False; [done|].
           intros [?|?]%elem_of_cons; done.
Qed.

Lemma for_each_scope_output_Raise (i : Z) (l : list string) scope e :
  NoDup l →
  for_each (scope_output i) scope l = Raise e →
  ∃ t, t ∈ l ∧ is_Some (scope !! t) ∧ e = BakerError (conflict_message t).
Proof.
  revert scope. induction l as [|a l IH]; intros scope Hnd; cbn [for_each].
  - done.
  - apply NoDup_cons in Hnd as [Ha Hnd].
    destruct (scope_output i scope a) as [scope1|e1] eqn:Hout.
    + unfold scope_output in Hout.
      destruct (scope !! a) eqn:Hsa; [done|]. injection Hout as <-.
      intros Hrest. destruct (IH _ Hnd Hrest) as (t & Hin & Ht & ->).
      exists t. split; [by right|]. split; [|done].
      rewrite lookup_insert_ne in Ht; [done|]. by intros <-.
    + unfold scope_output in Hout.
      destruct (scope !! a) eqn:Hsa; [|done]. injection Hout as <-.
      intros [= <-]. exists a. split; [left|]. by rewrite Hsa.
Qed.

Lemma scope_step_Ok (i : Z) scope step scope' :
  scope_step i scope step = Ok scope' →
  (∀ t, t ∈ output_file_set step →
        scope !! t = None ∧ t ∉ input_file_set step) ∧
  (∀ t, scope' !! t
        = if decide (t ∈ output_file_set step) then Some (i, 0%Z)
          else if decide (t ∈ input_file_set step)
               then Some (consumed (scope !! t))
               else scope !! t).
Proof.
  unfold scope_step. intros Hok.
  apply for_each_scope_output_Ok in Hok as [Hfree Hlook];
    [|apply NoDup_set_iter].
  split.
  - intros t Ht. apply elem_of_set_iter in Ht. specialize (Hfree t Ht).
    rewrite foldl_scope_input_lookup in Hfree by apply NoDup_set_iter.
    destruct (decide (t ∈ set_iter (input_file_set step))) as [|Hni];
      [done|].
    split; [done|]. by rewrite <-elem_of_set_iter.
  - intros t. rewrite Hlook.
    rewrite foldl_scope_input_lookup by apply NoDup_set_iter.
    destruct (decide (t ∈ output_file_set step)) as [Ho|Ho].
    + rewrite decide_True; [done | by apply elem_of_set_iter].
    + rewrite decide_False; [| by rewrite elem_of_set_iter].
      destruct (decide (t ∈ input_file_set step)) as [Hi|Hi].
      * rewrite decide_True; [done | by apply elem_of_set_iter].
      * rewrite decide_False; [done | by rewrite elem_of_set_iter].
Qed.

Lemma scope_step_Raise (i : Z) scope step e :
  scope_step i scope step = Raise e →
  ∃ t, t ∈ output_file_set step ∧
       (t ∈ input_file_set step ∨ is_Some (scope !! t)) ∧
       e = BakerError (conflict_message t).
Proof.
  unfold scope_step. intros Hr.
  apply for_each_scope_output_Raise in Hr as (t & Hin & Ht & ->);
    [|apply NoDup_set_iter].
  exists t. split; [by apply elem_of_set_iter|]. split; [|done].
  rewrite foldl_scope_input_lookup in Ht by apply NoDup_set_iter.
  destruct (decide (t ∈ set_iter (input_file_set step))) as [Hi|Hi].
  - left. by apply elem_of_set_iter.
  - by right.
Qed.



(** *** What the resolved scope records *)

Lemma consumed_by_snoc steps step t :
  consumed_by (steps ++ [step]) t
  ↔ consumed_by steps t ∨ t ∈ input_file_set step.
Proof.
  unfold consumed_by. split.
  - intros (s & [Hs|Hs]%elem_of_app & Ht); [left; eauto|].
    apply list_elem_of_singleton in Hs as ->. by right.
  - intros [(s & Hs & Ht)|Ht].
    + exists s. split; [apply elem_of_app; by left | done].
    + exists step. split; [|done]. apply elem_of_app. right. by left.
Qed.

Lemma produced_by_snoc steps step t :
  produced_by (steps ++ [step]) t
  ↔ produced_by steps t ∨ t ∈ output_file_set step.
Proof.
  unfold produced_by. split.
  - intros (s & [Hs|Hs]%elem_of_app & Ht); [left; eauto|].
    apply list_elem_of_singleton in Hs as ->. by right.
  - intros [(s & Hs & Ht)|Ht].
    + exists s. split; [apply elem_of_app; by left | done].
    + exists step. split; [|done]. apply elem_of_app. right. by left.
Qed.

Lemma consumers_snoc steps step t :
  consumers t (steps ++ [step])
  = consumers t steps + (if decide (t ∈ input_file_set step) then 1 else 0).
Proof.
  unfold consumers. rewrite filter_app, length_app. f_equal.
  rewrite filter_cons, filter_nil. by case_decide.
Qed.

Lemma consumers_0 steps t : consumers t steps = 0 ↔ ¬ consumed_by steps t.
Proof.
  unfold consumers, consumed_by. induction steps as [|s steps IH].
  - split; [|done]. intros _ (s & Hs & _). by apply elem_of_nil in Hs.
  - rewrite filter_cons. case_decide as Hs; simpl.
    + split; [done|]. intros Hno. destruct Hno. exists s. split; [left|done].
    + rewrite IH. split.
      * intros Hno (s' & [->|Hs']%elem_of_cons & Ht); [done|].
        apply Hno. eauto.
      * intros Hno (s' & Hs' & Ht). apply Hno. exists s'.
        split; [by right | done].
Qed.

Lemma scope_inv_nil : scope_inv [] ∅.
Proof.
  split.
  - intros t. rewrite lookup_empty. split.
    + by intros [? ?].
    + intros [(s & Hs & _)|(s & Hs & _)]; by apply elem_of_nil in Hs.
  - intros t ref. by rewrite lookup_empty.
  - intros t ref. by rewrite lookup_empty.
Qed.

Lemma scope_inv_step (past : list StepDefinition) scope step scope' :
  scope_inv past scope →
  scope_step (Z.of_nat (length past)) scope step = Ok scope' →
  scope_inv (past ++ [step]) scope'.
Proof.
  intros [Hdom Horigin Hcount] [Hfree Hlook]%scope_step_Ok. split.
  - intros t. rewrite Hlook, consumed_by_snoc, produced_by_snoc.
    destruct (decide (t ∈ output_file_set step)) as [Ho|Ho];
      [split; eauto|].
    destruct (decide (t ∈ input_file_set step)) as [Hi|Hi];
      [split; eauto|].
    rewrite Hdom. tauto.
  - intros t ref. rewrite Hlook.
    destruct (decide (t ∈ output_file_set step)) as [Ho|Ho].
    { intros [= <-]. right. exists (length past), step.
      split; [done|]. split; [|done].
      rewrite lookup_app_r, Nat.sub_diag; done. }
    assert (∀ ref0, scope !! t = Some ref0 →
      (ref0.1 = (-1)%Z ∧ ¬ produced_by (past ++ [step]) t) ∨
      (∃ k s, ref0.1 = Z.of_nat k ∧ (past ++ [step])%list !! k = Some s ∧
              t ∈ output_file_set s)) as Hold.
    { intros ref0 Href0.
      destruct (Horigin _ _ Href0) as [[Hext Hnp]|(k & s & Hk & Hs & Ht)].
      - left. split; [done|]. rewrite produced_by_snoc. tauto.
      - right. exists k, s. split; [done|]. split; [|done].
        by apply lookup_app_l_Some. }
    destruct (decide (t ∈ input_file_set step)) as [Hi|Hi]; [|by apply Hold].
    intros [= <-]. destruct (scope !! t) as [ref0|] eqn:Hst; simpl.
    + by apply Hold.
    + left. split; [done|]. rewrite produced_by_snoc.
      intros [Hp|Hp]; [|done].
      assert (is_Some (scope !! t)) as [? ?]; [|congruence].
      apply Hdom. by right.
  - intros t ref. rewrite Hlook, consumers_snoc.
    destruct (decide (t ∈ output_file_set step)) as [Ho|Ho].
    { intros [= <-]. destruct (Hfree t Ho) as [Hnone Hni].
      rewrite decide_False by done. simpl.
      assert (consumers t past = 0) as ->; [|done].
      apply consumers_0. intros Hc.
      assert (is_Some (scope !! t)) as [? ?]; [|congruence].
      apply Hdom. by left. }
    destruct (decide (t ∈ input_file_set step)) as [Hi|Hi].
    + intros [= <-]. destruct (scope !! t) as [ref0|] eqn:Hst; simpl.
      * rewrite (Hcount _ _ Hst). lia.
      * assert (consumers t past = 0) as ->; [|done].
        apply consumers_0. intros Hc.
        assert (is_Some (scope !! t)) as [? ?]; [|congruence].
        apply Hdom. by left.
    + intros Hst. rewrite (Hcount _ _ Hst). lia.
Qed.

(** *** The whole scope resolver *)

Lemma scope_steps_snoc_index (past : list StepDefinition) step :
  (Z.of_nat (length past) + 1)%Z = Z.of_nat (length (past ++ [step])).
Proof. rewrite length_app. simpl. lia. Qed.

Lemma scope_steps_Ok past scope steps scope' :
  scope_inv past scope →
  scope_steps (Z.of_nat (length past)) scope steps = Ok scope' →
  scope_inv (past ++ steps) scope' ∧
  ∀ pre step post t,
    steps = (pre ++ step :: post)%list → ¬ conflict_at (past ++ pre) step t.
Proof.
  revert past scope.
  induction steps as [|s steps IH]; intros past scope Hinv; cbn [scope_steps].
  - intros [= <-]. rewrite app_nil_r. split; [done|].
    intros [|? ?] ? ? ? ?; done.
  - intros (scope1 & Hstep & Hrest)%rbind_Ok.
    pose proof (scope_inv_step _ _ _ _ Hinv Hstep) as Hinv1.
    rewrite (scope_steps_snoc_index past s) in Hrest.
    destruct (IH _ _ Hinv1 Hrest) as [Hinv' Hnc].
    rewrite <-app_assoc in Hinv'. split; [done|].
    intros pre step post t Heq [Ho Hc]. destruct pre as [|s0 pre].
    + injection Heq as <- <-. rewrite app_nil_r in Hc.
      apply scope_step_Ok in Hstep as [Hfree _].
      destruct (Hfree t Ho) as [Hnone Hni].
      destruct Hc as [Hc|Hc]; [done|].
      apply (inv_dom _ _ Hinv) in Hc as [? ?]. congruence.
    + injection Heq as <- ->. apply (Hnc pre step post t eq_refl).
      split; [done|]. by rewrite <-app_assoc.
Qed.

Lemma scope_steps_Raise past scope steps e :
  scope_inv past scope →
  scope_steps (Z.of_nat (length past)) scope steps = Raise e →
  ∃ pre step post t,
    steps = (pre ++ step :: post)%list ∧
    conflict_at (past ++ pre) step t ∧
    e = BakerError (conflict_message t).
Proof.
  revert past scope.
  induction steps as [|s steps IH]; intros past scope Hinv; cbn [scope_steps].
  - done.
  - destruct (scope_step (Z.of_nat (length past)) scope s)
      as [scope1|e1] eqn:Hstep.
    + change (Ok scope1 ≫= ?k) with (k scope1). cbv beta.
      pose proof (scope_inv_step _ _ _ _ Hinv Hstep) as Hinv1.
      rewrite (scope_steps_snoc_index past s). intros Hrest.
      destruct (IH _ _ Hinv1 Hrest) as (pre & step & post & t & -> & Hc & ->).
      exists (s :: pre), step, post, t. split; [done|]. split; [|done].
      by rewrite <-app_assoc in Hc.
    + intros [= <-].
      apply scope_step_Raise in Hstep as (t & Ho & Hc & ->).
      exists [], s, steps, t. split; [done|]. split; [|done].
      rewrite app_nil_r. split; [done|].
      destruct Hc as [Hc|Hc]; [by left|]. right.
      by apply (inv_dom _ _ Hinv).
Qed.

Lemma _build_lexical_scope_Ok steps scope :
  _build_lexical_scope steps = Ok scope →
  scope_inv steps scope ∧ ¬ has_conflict steps.
Proof.
  intros Hok. destruct (scope_steps_Ok [] ∅ steps scope scope_inv_nil Hok)
    as [Hinv Hnc].
  split; [done|]. intros (pre & step & post & t & Heq & Hc).
  by apply (Hnc pre step post t Heq).
Qed.

Lemma _build_lexical_scope_Raise steps e :
  _build_lexical_scope steps = Raise e →
  ∃ pre step post t,
    steps = (pre ++ step :: post)%list ∧ conflict_at pre step t ∧
    e = BakerError (conflict_message t).
Proof. intros Hr. by apply (scope_steps_Raise [] ∅ steps e scope_inv_nil). Qed.

(** The resolver fails exactly on the step lists that have a conflict,
    and the message then names a conflicting tag. *)
Lemma _build_lexical_scope_conflict steps :
  has_conflict steps →
  ∃ pre step post t,
    steps = (pre ++ step :: post)%list ∧ conflict_at pre step t ∧
    _build_lexical_scope steps = Raise (BakerError (conflict_message t)).
Proof.
  intros Hc. destruct (_build_lexical_scope steps) as [scope|e] eqn:Hb.
  - by apply _build_lexical_scope_Ok in Hb as [_ Hnc].
  - apply _build_lexical_scope_Raise in Hb
      as (pre & step & post & t & Heq & Hct & ->). eauto 10.
Qed.

(** *** Interface determiner and combinator *)

Lemma elem_of_external_tags scope t :
  t ∈ external_tags scope ↔ ∃ ref, scope !! t = Some ref ∧ ref.1 = (-1)%Z.
Proof.
  unfold external_tags. rewrite elem_of_dom. split.
  - intros [ref [Hl Hp]%map_lookup_filter_Some]. eauto.
  - intros (ref & Hl & Hp). exists ref. by apply map_lookup_filter_Some.
Qed.

Lemma elem_of_unreferenced_tags scope t :
  t ∈ unreferenced_tags scope ↔ ∃ ref, scope !! t = Some ref ∧ ref.2 = 0%Z.
Proof.
  unfold unreferenced_tags. rewrite elem_of_dom. split.
  - intros [ref [Hl Hp]%map_lookup_filter_Some]. eauto.
  - intros (ref & Hl & Hp). exists ref. by apply map_lookup_filter_Some.
Qed.

Lemma exposure_check scope (exposed : gset string) :
  size (exposed ∖ (dom scope ∖ external_tags scope)) ≠ 0
  ↔ ∃ t, offending scope exposed t.
Proof.
  rewrite size_non_empty_iff. unfold offending. split.
  - intros [t Ht]%set_choose. exists t.
    apply elem_of_difference in Ht as [He Hn]. split; [done|].
    destruct (decide (t ∈ external_tags scope)) as [Hext|Hne].
    { right. by apply elem_of_external_tags. }
    left. apply not_elem_of_dom. intros Hd. apply Hn.
    by apply elem_of_difference.
  - intros (t & He & Hbad) Hempty. apply (not_elem_of_empty (C:=gset string) t).
    apply Hempty. apply elem_of_difference. split; [done|].
    intros [Hd Hne]%elem_of_difference. destruct Hbad as [Hnone|Hext].
    + apply elem_of_dom in Hd as [? ?]. congruence.
    + by apply elem_of_external_tags in Hext.
Qed.

Lemma _determine_sequence_interface_eq steps exposed scope :
  _build_lexical_scope steps = Ok scope →
  _determine_sequence_interface steps exposed
  = if decide (size (exposed ∖ (dom scope ∖ external_tags scope)) ≠ 0)
    then Raise (BakerError (expose_message (join ", " (set_iter exposed))))
    else Ok (external_tags scope, unreferenced_tags scope ∪ exposed).
Proof. unfold _determine_sequence_interface. by intros ->. Qed.

Lemma sequence_eq steps exposed :
  (2 ≤ length steps)%nat →
  sequence steps exposed
  = (_ ← _build_lexical_scope steps;
     interface ← _determine_sequence_interface steps exposed;
     Ok (mkStepDefinition interface.1 interface.2
           (Sequence_script steps interface.2))).
Proof.
  intros Hlen. unfold sequence.
  rewrite decide_False by lia. by rewrite decide_False by lia.
Qed.

(** Where composition gets to once the scope has been resolved. *)
Lemma sequence_resolved steps exposed scope :
  (2 ≤ length steps)%nat →
  _build_lexical_scope steps = Ok scope →
  sequence steps exposed
  = if decide (size (exposed ∖ (dom scope ∖ external_tags scope)) ≠ 0)
    then Raise (BakerError (expose_message (join ", " (set_iter exposed))))
    else Ok (mkStepDefinition (external_tags scope)
               (unreferenced_tags scope ∪ exposed)
               (Sequence_script steps (unreferenced_tags scope ∪ exposed))).
Proof.
  intros Hlen Hscope. rewrite sequence_eq by done. rewrite Hscope.
  change (Ok scope ≫= ?k) with (k scope). cbv beta.
  rewrite (_determine_sequence_interface_eq _ _ _ Hscope).
  by destruct (decide (size _ ≠ 0)).
Qed.

Lemma sequence_Ok steps exposed seq :
  (2 ≤ length steps)%nat →
  sequence steps exposed = Ok seq →
  ∃ scope,
    _build_lexical_scope steps = Ok scope ∧
    (¬ ∃ t, offending scope exposed t) ∧
    seq = mkStepDefinition (external_tags scope)
            (unreferenced_tags scope ∪ exposed)
            (Sequence_script steps (unreferenced_tags scope ∪ exposed)).
Proof.
  intros Hlen Hseq.
  destruct (_build_lexical_scope steps) as [scope|e] eqn:Hscope.
  - rewrite (sequence_resolved _ _ _ Hlen Hscope) in Hseq.
    exists scope. destruct (decide _) as [|Hno]; [done|].
    injection Hseq as <-. split; [done|]. split; [|done].
    by rewrite <-exposure_check.
  - rewrite sequence_eq, Hscope in Hseq by done. done.
Qed.

Lemma consumed_by_nil t : ¬ consumed_by [] t.
Proof. intros (s & Hs & _). by apply elem_of_nil in Hs. Qed.

Lemma produced_by_nil t : ¬ produced_by [] t.
Proof. intros (s & Hs & _). by apply elem_of_nil in Hs. Qed.

Lemma consumed_by_cons step steps t :
  consumed_by (step :: steps) t
  ↔ t ∈ input_file_set step ∨ consumed_by steps t.
Proof.
  unfold consumed_by. split.
  - intros (s & [->|Hs]%elem_of_cons & Ht); eauto.
  - intros [Ht|(s & Hs & Ht)].
    + exists step. split; [left | done].
    + exists s. split; [by right | done].
Qed.

Lemma produced_by_cons step steps t :
  produced_by (step :: steps) t
  ↔ t ∈ output_file_set step ∨ produced_by steps t.
Proof.
  unfold produced_by. split.
  - intros (s & [->|Hs]%elem_of_cons & Ht); eauto.
  - intros [Ht|(s & Hs & Ht)].
    + exists step. split; [left | done].
    + exists s. split; [by right | done].
Qed.

(** The tags of external origin are those some step reads and no step
    writes. *)
Lemma external_tags_spec steps scope t :
  scope_inv steps scope →
  t ∈ external_tags scope ↔ consumed_by steps t ∧ ¬ produced_by steps t.
Proof.
  intros [Hdom Horigin Hcount]. rewrite elem_of_external_tags. split.
  - intros (ref & Hs & Hext).
    destruct (Horigin _ _ Hs) as [[_ Hnp]|(k & s & Hk & _)]; [|lia].
    split; [|done].
    destruct (proj1 (Hdom t)) as [Hc|Hp]; [by rewrite Hs | done | done].
  - intros [Hc Hnp].
    destruct (proj2 (Hdom t) (or_introl Hc)) as [ref Hs]. exists ref.
    split; [done|].
    destruct (Horigin _ _ Hs) as [[Hext _]|(k & s & _ & Hk & Ht)]; [done|].
    destruct Hnp. exists s. split; [|done]. by eapply list_elem_of_lookup_2.
Qed.

(** The tags with reference count 0 are those some step writes and no
    step reads. *)
Lemma unreferenced_tags_spec steps scope t :
  scope_inv steps scope →
  t ∈ unreferenced_tags scope ↔ produced_by steps t ∧ ¬ consumed_by steps t.
Proof.
  intros [Hdom Horigin Hcount]. rewrite elem_of_unreferenced_tags. split.
  - intros (ref & Hs & Hzero). rewrite (Hcount _ _ Hs) in Hzero.
    assert (¬ consumed_by steps t) as Hnc by (apply consumers_0; lia).
    split; [|done].
    destruct (proj1 (Hdom t)) as [Hc|Hp]; [by rewrite Hs | done | done].
  - intros [Hp Hnc].
    destruct (proj2 (Hdom t) (or_intror Hp)) as [ref Hs]. exists ref.
    split; [done|]. rewrite (Hcount _ _ Hs).
    apply consumers_0 in Hnc. lia.
Qed.

(** A tag of external origin is never an output tag of a step. *)
Lemma external_not_output steps scope step t :
  scope_inv steps scope → step ∈ steps →
  t ∈ external_tags scope → t ∉ output_file_set step.
Proof.
  intros Hinv Hstep [_ Hnp]%(external_tags_spec steps) Ht; [|done].
  apply Hnp. by exists step.
Qed.

(** ** The claims about composition *)

(** C8. A list of exactly one step is returned as it is, whatever the
    exposed intermediates are, and the empty list is rejected with a
    composition error. *)
Theorem sequence_one_or_none :
  (∀ step exposed, sequence [step] exposed = Ok step) ∧
  (∀ exposed,
     sequence [] exposed
     = Raise (BakerError "Cannot sequence fewer than 1 event")).
Proof. split; reflexivity. Qed.

(** C1. When a list of at least two steps composes, the input tag set of
    the composite is the set of tags whose origin in the resolved scope
    is -1 (external), and its output tag set is the set of tags whose
    reference count is 0 together with the exposed intermediates.  For a
    step reading raw and writing clean followed by a step reading clean
    and writing report, the composite reads raw and writes report. *)
Theorem sequence_interface :
  (∀ steps exposed seq,
     (2 ≤ length steps)%nat →
     sequence steps exposed = Ok seq →
     ∃ scope,
       _build_lexical_scope steps = Ok scope ∧
       (∀ t, t ∈ input_file_set seq
             ↔ ∃ ref, scope !! t = Some ref ∧ ref.1 = (-1)%Z) ∧
       (∀ t, t ∈ output_file_set seq
             ↔ (∃ ref, scope !! t = Some ref ∧ ref.2 = 0%Z) ∨ t ∈ exposed)) ∧
  (∀ A B,
     input_file_set A = {["raw"]} → output_file_set A = {["clean"]} →
     input_file_set B = {["clean"]} → output_file_set B = {["report"]} →
     ∃ seq,
       sequence [A; B] ∅ = Ok seq ∧
       input_file_set seq = {["raw"]} ∧ output_file_set seq = {["report"]}).
Proof.
  split.
  - intros steps exposed seq Hlen Hseq.
    destruct (sequence_Ok _ _ _ Hlen Hseq) as (scope & Hscope & _ & ->).
    exists scope. split; [done|]. simpl. split.
    + intros t. apply elem_of_external_tags.
    + intros t. rewrite elem_of_union. by rewrite elem_of_unreferenced_tags.
  - intros A B HAi HAo HBi HBo.
    destruct (_build_lexical_scope [A; B]) as [scope|e] eqn:Hscope.
    + apply _build_lexical_scope_Ok in Hscope as Hinv. destruct Hinv as [Hinv _].
      eexists. split.
      { rewrite (sequence_resolved [A; B] ∅ scope (le_n 2) Hscope).
        rewrite decide_False; [done|].
        intros Hne. apply Hne. apply size_empty_iff. set_solver. }
      simpl. split; apply set_eq; intros t.
      * rewrite (external_tags_spec _ _ _ Hinv).
        rewrite !consumed_by_cons, !produced_by_cons, HAi, HAo, HBi, HBo.
        rewrite !elem_of_singleton.
        pose proof (consumed_by_nil t). pose proof (produced_by_nil t).
        split; [|intros ->]; naive_solver.
      * rewrite elem_of_union, (unreferenced_tags_spec _ _ _ Hinv).
        rewrite !consumed_by_cons, !produced_by_cons, HAi, HAo, HBi, HBo.
        rewrite !elem_of_singleton.
        pose proof (consumed_by_nil t). pose proof (produced_by_nil t).
        split; [|intros ->]; set_solver.
    + apply _build_lexical_scope_Raise in Hscope
        as (pre & step & post & t & Heq & [Ho Hc] & _).
      exfalso. destruct pre as [|s1 [|s2 [|s3 pre]]]; simplify_eq/=.
      * rewrite HAo, HAi in *.
        pose proof (consumed_by_nil t). pose proof (produced_by_nil t).
        set_solver.
      * revert Hc. rewrite consumed_by_cons, produced_by_cons.
        rewrite HAo, HAi, HBi in *. rewrite HBo in Ho.
        pose proof (consumed_by_nil t). pose proof (produced_by_nil t).
        set_solver.
Qed.



(** C7, as the code has it.  For a list of at least two steps whose
    scope resolves without a conflict, composition raises exactly when
    some exposed tag is unknown to the scope or of external origin; the
    error is then the composition error whose message lists the exposed
    tags, so that every offending tag occurs in it. *)
Theorem sequence_exposure steps exposed scope :
  (2 ≤ length steps)%nat →
  _build_lexical_scope steps = Ok scope →
  ((∃ e, sequence steps exposed = Raise e)
   ↔ ∃ t, offending scope exposed t) ∧
  (∀ e, sequence steps exposed = Raise e →
     e = BakerError (expose_message (join ", " (set_iter exposed))) ∧
     ∀ t, offending scope exposed t →
          ∃ before after,
            join ", " (set_iter exposed) = before ++ t ++ after).
Proof.
  intros Hlen Hscope. rewrite (sequence_resolved _ _ _ Hlen Hscope).
  destruct (decide (size _ ≠ 0)) as [Hbad|Hgood].
  - apply exposure_check in Hbad as Hoff. split; [split; eauto|].
    intros e [= <-]. split; [done|]. intros t [Ht _].
    apply join_occurs. by apply elem_of_set_iter.
  - split; [|done]. split; [by intros [? ?]|].
    intros Hoff. by apply exposure_check in Hoff.
Qed.

(** ** The execution planner *)

Lemma restrict_lookup (d : gmap string string) (tags : gset string) t :
  restrict d tags !! t = if decide (t ∈ tags) then d !! t else None.
Proof.
  unfold restrict. destruct (decide (t ∈ tags)) as [Hin|Hin].
  - destruct (d !! t) as [p|] eqn:Hd.
    + by apply map_lookup_filter_Some.
    + apply map_lookup_filter_None. left. done.
  - apply map_lookup_filter_None. right. intros p _. done.
Qed.

Lemma update_lookup (d other : gmap string string) t :
  update d other !! t
  = match other !! t with Some p => Some p | None => d !! t end.
Proof.
  unfold update. rewrite lookup_union.
  destruct (other !! t), (d !! t); done.
Qed.

Lemma _generate_temp_filename_path sid (w w' : World) p :
  _generate_temp_filename sid w = (p, w') →
  ∃ u, p = temp_folder sid ++ "/" ++ uuid_str u.
Proof.
  unfold _generate_temp_filename, temp_folder.
  destruct (uuid4 _) as [u w2]. intros Heq. exists u.
  by apply (f_equal fst) in Heq.
Qed.

(** What a call does to the world, step by step. *)
Lemma _generate_temp_filename_eq sid (w : World) :
  _generate_temp_filename sid w
  = (temp_folder sid ++ "/"
       ++ uuid_str (uuid4 (if os_path_exists (temp_folder sid) w then w
                           else os_mkdir (temp_folder sid) w)).1,
     (uuid4 (if os_path_exists (temp_folder sid) w then w
             else os_mkdir (temp_folder sid) w)).2).
Proof.
  unfold _generate_temp_filename, temp_folder. cbv zeta.
  by destruct (uuid4 _).
Qed.

Lemma generate_paths_lookup sid (tags : list string) (w w' : World)
    (acc generated : gmap string string) t :
  NoDup tags →
  foldl (λ acc tag,
           let '(p, w') := _generate_temp_filename sid acc.2 in
           (<[tag := p]> acc.1, w'))
        (acc, w) tags = (generated, w') →
  if decide (t ∈ tags)
  then ∃ p, generated !! t = Some p ∧ allocated sid p
  else generated !! t = acc !! t.
Proof.
  revert acc w. induction tags as [|a tags IH]; intros acc w Hnd; cbn [foldl].
  - intros [= <- <-]. rewrite decide_False; [done | apply not_elem_of_nil].
  - apply NoDup_cons in Hnd as [Ha Hnd]. cbn [fst snd].
    destruct (_generate_temp_filename sid w) as [p w1] eqn:Hgen.
    intros Hrest. specialize (IH _ _ Hnd Hrest).
    destruct (decide (t = a)) as [->|Hne].
    + rewrite decide_True by left. rewrite decide_False in IH by done.
      exists p. rewrite IH, lookup_insert_eq. split; [done|]. by exists w, w1.
    + destruct (decide (t ∈ tags)) as [Hin|Hin].
      * rewrite decide_True by (by right). done.
      * rewrite decide_False by (intros [?|?]%elem_of_cons; done).
        by rewrite IH, lookup_insert_ne.
Qed.

Lemma generate_paths_spec sid (X : gset string) (w w' : World)
    (generated : gmap string string) t :
  generate_paths sid (set_iter X) w = (generated, w') →
  if decide (t ∈ X)
  then ∃ p, generated !! t = Some p ∧ allocated sid p
  else generated !! t = None.
Proof.
  intros Hgen.
  pose proof (generate_paths_lookup sid _ _ _ _ _ t (NoDup_set_iter X) Hgen)
    as Hl.
  destruct (decide (t ∈ X)) as [Hin|Hin].
  - rewrite decide_True in Hl; [done | by apply elem_of_set_iter].
  - rewrite decide_False in Hl; [done | by rewrite elem_of_set_iter].
Qed.

(** The two path mappings [plan_step] hands to the step. *)
Lemma plan_step_spec sid (out_set : gset string)
    (seq_in seq_out prev : gmap string string) step (w w' : World)
    instance outs :
  plan_step sid out_set seq_in seq_out prev step w = (instance, outs, w') →
  definition instance = step ∧ outs = output_paths instance ∧
  (∀ t, input_paths instance !! t
        = if decide (t ∈ input_file_set step)
          then match prev !! t with Some p => Some p | None => seq_in !! t end
          else None) ∧
  (∀ t, t ∈ output_file_set step →
        match seq_out !! t with
        | Some p => output_paths instance !! t = Some p
        | None =>
            if decide (t ∈ out_set)
            then output_paths instance !! t = None
            else ∃ p, output_paths instance !! t = Some p ∧ allocated sid p
        end) ∧
  (∀ t, t ∉ output_file_set step → output_paths instance !! t = None).
Proof.
  unfold plan_step.
  destruct (generate_paths sid _ w) as [generated w1] eqn:Hgen.
  intros [= <- <- <-]. cbn [definition input_paths output_paths].
  split; [done|]. split; [done|]. split; [|split].
  - intros t. rewrite !update_lookup, !restrict_lookup, lookup_empty.
    destruct (decide (t ∈ input_file_set step)); [|done].
    by destruct (prev !! t), (seq_in !! t).
  - intros t Ht. rewrite !update_lookup, !restrict_lookup, lookup_empty.
    rewrite decide_True by done.
    pose proof (generate_paths_spec _ _ _ _ _ t Hgen) as Hg.
    destruct (seq_out !! t) as [p|] eqn:Hso; [done|].
    destruct (decide (t ∈ out_set)) as [Hin|Hin].
    + rewrite decide_False in Hg by set_solver. by rewrite Hg.
    + rewrite decide_True in Hg by set_solver.
      destruct Hg as (p & -> & Halloc). eauto.
  - intros t Ht. rewrite !update_lookup, !restrict_lookup, lookup_empty.
    rewrite decide_False by done.
    pose proof (generate_paths_spec _ _ _ _ _ t Hgen) as Hg.
    rewrite decide_False in Hg by set_solver. by rewrite Hg.
Qed.

Lemma plan_steps_lookup sid (out_set : gset string)
    (seq_in seq_out prev : gmap string string) steps (w w' : World)
    instances :
  plan_steps sid out_set seq_in seq_out prev steps w = (instances, w') →
  length instances = length steps ∧
  ∀ i step, steps !! i = Some step →
    ∃ instance outs (w1 w2 : World),
      instances !! i = Some instance ∧
      plan_step sid out_set seq_in seq_out (preceding prev instances i)
        step w1 = (instance, outs, w2).
Proof.
  revert prev w instances.
  induction steps as [|s steps IH]; intros prev w instances; cbn [plan_steps].
  - intros [= <- <-]. split; [done|]. intros i step. by rewrite lookup_nil.
  - destruct (plan_step sid out_set seq_in seq_out prev s w)
      as [[instance outs] w1] eqn:Hstep.
    destruct (plan_steps sid out_set seq_in seq_out outs steps w1)
      as [rest w2] eqn:Hrest.
    intros [= <- <-]. destruct (IH _ _ _ Hrest) as [Hlen Hlook].
    split; [simpl; by rewrite Hlen|].
    intros [|i] step Hi.
    + injection Hi as <-. exists instance, outs, w, w1. done.
    + destruct (Hlook i step Hi) as (inst & outs' & wa & wb & Hinst & Hplan).
      exists inst, outs', wa, wb. split; [done|].
      replace (preceding prev (instance :: rest) (S i))
        with (preceding outs rest i); [done|].
      destruct i as [|i]; [|done]. simpl.
      by apply plan_step_spec in Hstep as (_ & -> & _).
Qed.

Lemma build_instances_lookup steps (out_set : gset string)
    (input_files output_files : gmap string FileRef) (w w' : World)
    instances :
  build_instances steps out_set input_files output_files w
  = (instances, w') →
  length instances = length steps ∧
  ∀ i step, steps !! i = Some step →
    ∃ instance outs (w1 w2 : World),
      instances !! i = Some instance ∧
      plan_step (uuid4 w).1 out_set (path <$> input_files)
        (path <$> output_files) (preceding ∅ instances i) step w1
      = (instance, outs, w2).
Proof.
  unfold build_instances. destruct (uuid4 w) as [sid w1]. simpl.
  apply plan_steps_lookup.
Qed.

(** The outputs an instance was given are output tags of its step. *)
Lemma preceding_lookup steps (out_set : gset string)
    (input_files output_files : gmap string FileRef) (w w' : World)
    instances i t p :
  build_instances steps out_set input_files output_files w
  = (instances, w') →
  preceding ∅ instances i !! t = Some p →
  ∃ j step, i = S j ∧ steps !! j = Some step ∧ t ∈ output_file_set step.
Proof.
  intros [Hlen Hlook]%build_instances_lookup.
  destruct i as [|j]; simpl; [by rewrite lookup_empty|].
  destruct (instances !! j) as [inst|] eqn:Hinst;
    [|by rewrite lookup_empty].
  intros Hp. assert (is_Some (steps !! j)) as [step Hstep].
  { apply lookup_lt_is_Some. rewrite <-Hlen. by eapply lookup_lt_Some. }
  exists j, step. split; [done|]. split; [done|].
  destruct (Hlook j step Hstep) as (inst' & outs & w1 & w2 & Hinst' & Hplan).
  assert (inst' = inst) as -> by congruence.
  apply plan_step_spec in Hplan as (_ & _ & _ & _ & Hnone).
  destruct (decide (t ∈ output_file_set step)) as [|Hni]; [done|].
  rewrite (Hnone t Hni) in Hp. done.
Qed.

Lemma sequence_script steps exposed seq :
  (2 ≤ length steps)%nat →
  sequence steps exposed = Ok seq →
  script seq = Sequence_script steps (output_file_set seq).
Proof.
  intros Hlen Hseq.
  by destruct (sequence_Ok _ _ _ Hlen Hseq) as (scope & _ & _ & ->).
Qed.

(** The input paths of a planned instance, for any files the run is
    given: [input_paths] is updated with the external paths first and with
    the outputs of the preceding step second, so an entry of the latter
    would replace an entry of the former. *)
Lemma planned_input_paths steps (out_set : gset string)
    (input_files output_files : gmap string FileRef) (w w' : World)
    instances i step instance t :
  build_instances steps out_set input_files output_files w
  = (instances, w') →
  steps !! i = Some step →
  instances !! i = Some instance →
  definition instance = step ∧
  input_paths instance !! t
  = if decide (t ∈ input_file_set step)
    then match preceding ∅ instances i !! t with
         | Some p => Some p
         | None => path <$> input_files !! t
         end
    else None.
Proof.
  intros Hbuild Hstep Hinst.
  pose proof Hbuild as [_ Hlook]%build_instances_lookup.
  destruct (Hlook i step Hstep) as (inst' & outs & w1 & w2 & Hinst' & Hplan).
  assert (inst' = instance) as -> by congruence.
  apply plan_step_spec in Hplan as (Hdef & _ & Hin & _).
  split; [done|]. by rewrite Hin, lookup_fmap.
Qed.

(** Which tags of a step the planner has a path for, in a run that is
    given a path for each tag of the output set: every output tag, and the
    input tags that have an external path or are output tags of the step
    just before. *)
Lemma planned_outputs_covered steps (out_set : gset string)
    (input_files output_files : gmap string FileRef) (w w' : World)
    instances i step instance t :
  dom output_files = out_set →
  build_instances steps out_set input_files output_files w
  = (instances, w') →
  steps !! i = Some step →
  instances !! i = Some instance →
  is_Some (output_paths instance !! t) ↔ t ∈ output_file_set step.
Proof.
  intros Hdom Hbuild Hstep Hinst.
  pose proof Hbuild as [_ Hlook]%build_instances_lookup.
  destruct (Hlook i step Hstep) as (inst' & outs & w1 & w2 & Hinst' & Hplan).
  assert (inst' = instance) as -> by congruence.
  apply plan_step_spec in Hplan as (_ & _ & _ & Hout & Hnone).
  destruct (decide (t ∈ output_file_set step)) as [Hin|Hni].
  - split; [done|]. intros _. specialize (Hout t Hin).
    rewrite lookup_fmap in Hout.
    destruct (output_files !! t) as [ref|] eqn:Href; simpl in Hout.
    + by rewrite Hout.
    + rewrite decide_False in Hout.
      * destruct Hout as (p & -> & _). done.
      * rewrite <-Hdom. by apply not_elem_of_dom.
  - rewrite (Hnone t Hni). split; [by intros [? ?] | done].
Qed.

Lemma planned_inputs_covered steps (out_set : gset string)
    (input_files output_files : gmap string FileRef) (w w' : World)
    instances i step instance t :
  dom output_files = out_set →
  build_instances steps out_set input_files output_files w
  = (instances, w') →
  steps !! i = Some step →
  instances !! i = Some instance →
  is_Some (input_paths instance !! t)
  ↔ t ∈ input_file_set step ∧
    (t ∈ dom input_files ∨
     ∃ j before, i = S j ∧ steps !! j = Some before ∧
                 t ∈ output_file_set before).
Proof.
  intros Hdom Hbuild Hstep Hinst.
  destruct (planned_input_paths _ _ _ _ _ _ _ _ _ _ t Hbuild Hstep Hinst)
    as [_ ->].
  destruct (decide (t ∈ input_file_set step)) as [Hin|Hni];
    [|split; [by intros [? ?] | by intros [? _]]].
  destruct (preceding ∅ instances i !! t) as [p|] eqn:Hprev.
  - split; [|done]. intros _. split; [done|]. right.
    destruct (preceding_lookup _ _ _ _ _ _ _ _ _ _ Hbuild Hprev)
      as (j & before & -> & Hj & Hout). eauto.
  - rewrite ?lookup_fmap, fmap_is_Some, <-elem_of_dom. split.
    + intros Hd. split; [done | by left].
    + intros [_ [Hd|(j & before & -> & Hj & Hout)]]; [done|]. exfalso.
      pose proof Hbuild as [Hlen _]%build_instances_lookup.
      assert (is_Some (instances !! j)) as [instj Hinstj].
      { apply lookup_lt_is_Some. rewrite Hlen. by eapply lookup_lt_Some. }
      simpl in Hprev. rewrite Hinstj in Hprev.
      assert (is_Some (output_paths instj !! t)) as [? ?]; [|congruence].
      by eapply (planned_outputs_covered steps).
Qed.

(** ** The allocations of a run *)









(** ** The claims about a run *)

(** C2, as the code has it.  In any run of a composed sequence, the
    instance planned for step [i] is an instance of that step, and each
    input tag of the step resolves to what the immediately preceding step
    was given as the output path of the tag when there is such a path, and
    otherwise to the external input path of the sequence for the tag.  In
    a run that is given input paths for tags of the input set of the
    sequence only, the two never exist for the same tag. *)
Theorem input_path_resolution steps exposed seq
    (input_files output_files : gmap string FileRef) (w w' : World)
    instances i step instance t :
  (2 ≤ length steps)%nat →
  sequence steps exposed = Ok seq →
  build_instances steps (output_file_set seq) input_files output_files w
  = (instances, w') →
  steps !! i = Some step →
  instances !! i = Some instance →
  t ∈ input_file_set step →
  script seq input_files output_files w = run_instances instances w' ∧
  definition instance = step ∧
  input_paths instance !! t
  = match preceding ∅ instances i !! t with
    | Some p => Some p
    | None => path <$> input_files !! t
    end ∧
  (dom input_files ⊆ input_file_set seq →
   preceding ∅ instances i !! t = None ∨ input_files !! t = None).
Proof.
  intros Hlen Hseq Hbuild Hstep Hinst Ht.
  rewrite (sequence_script _ _ _ Hlen Hseq). unfold Sequence_script.
  rewrite Hbuild. split; [done|].
  destruct (planned_input_paths _ _ _ _ _ _ _ _ _ _ t Hbuild Hstep Hinst)
    as [Hdef Hin].
  split; [done|]. split; [by rewrite Hin, decide_True|].
  intros Hdom.
  destruct (sequence_Ok _ _ _ Hlen Hseq) as (scope & Hscope & _ & Hrec).
  apply _build_lexical_scope_Ok in Hscope as [Hinv _].
  destruct (input_files !! t) as [ref|] eqn:Href; [|by right]. left.
  destruct (preceding ∅ instances i !! t) as [p|] eqn:Hprev; [|done].
  exfalso.
  destruct (preceding_lookup _ _ _ _ _ _ _ _ _ _ Hbuild Hprev)
    as (j & stepj & _ & Hj & Hout).
  eapply (external_not_output steps scope stepj t); [done| |  |done].
  - by eapply list_elem_of_lookup_2.
  - assert (t ∈ dom input_files) as Hd by (apply elem_of_dom; eauto).
    apply Hdom in Hd. by rewrite Hrec in Hd.
Qed.


(** A run either builds every instance in order, or builds a prefix in
    order and stops at the first build that raises. *)
Lemma run_instances_outcome instances (w : World) :
  (∃ w', builds_in_order instances w w' ∧
         run_instances instances w = (w', None)) ∨
  (∃ pre instance post w_i w' e,
     instances = (pre ++ instance :: post)%list ∧
     builds_in_order pre w w_i ∧
     build instance true w_i = (w', Some e) ∧
     run_instances instances w = (w', Some e)).
Proof.
  revert w. induction instances as [|instance rest IH]; intros w.
  - left. exists w. split; [constructor | done].
  - cbn [run_instances].
    destruct (build instance true w) as [w1 [e|]] eqn:Hbuild.
    + right. exists [], instance, rest, w, w1, e.
      split; [done|]. split; [constructor | done].
    + destruct (IH w1) as [(w' & Hall & Hrun)
                          |(pre & inst & post & w_i & w' & e &
                            -> & Hpre & Hfail & Hrun)].
      * left. exists w'. split; [by econstructor | done].
      * right. exists (instance :: pre), inst, post, w_i, w', e.
        split; [done|]. split; [by econstructor | done].
Qed.

Lemma plan_steps_definitions sid (out_set : gset string)
    (seq_in seq_out prev : gmap string string) steps (w w' : World)
    instances :
  plan_steps sid out_set seq_in seq_out prev steps w = (instances, w') →
  definition <$> instances = steps.
Proof.
  revert prev w instances.
  induction steps as [|s steps IH]; intros prev w instances; cbn [plan_steps].
  - by intros [= <- <-].
  - destruct (plan_step sid out_set seq_in seq_out prev s w)
      as [[instance outs] w1] eqn:Hstep.
    destruct (plan_steps sid out_set seq_in seq_out outs steps w1)
      as [rest w2] eqn:Hrest.
    intros [= <- <-]. rewrite fmap_cons, (IH _ _ _ Hrest).
    by apply plan_step_spec in Hstep as [-> _].
Qed.

(** C5. A run of a composed sequence first plans one instance per
    child step, in the declared order.  It then either builds them all,
    each on the world the previous build left, or it builds a prefix in
    that way and the next build raises: the run then ends with that very
    exception in the world the failing build left, so no later instance
    is built. *)
Theorem script_fail_fast steps exposed seq
    (input_files output_files : gmap string FileRef) (w : World) :
  (2 ≤ length steps)%nat →
  sequence steps exposed = Ok seq →
  ∃ instances w0,
    build_instances steps (output_file_set seq) input_files output_files w
    = (instances, w0) ∧
    definition <$> instances = steps ∧
    ((∃ w', builds_in_order instances w0 w' ∧
            script seq input_files output_files w = (w', None)) ∨
     (∃ pre instance post w_i w' e,
        instances = (pre ++ instance :: post)%list ∧
        builds_in_order pre w0 w_i ∧
        build instance true w_i = (w', Some e) ∧
        script seq input_files output_files w = (w', Some e))).
Proof.
  intros Hlen Hseq. rewrite (sequence_script _ _ _ Hlen Hseq).
  unfold Sequence_script.
  destruct (build_instances steps (output_file_set seq) input_files
              output_files w) as [instances w0] eqn:Hbuild.
  exists instances, w0. split; [done|]. split.
  - unfold build_instances in Hbuild. destruct (uuid4 w) as [sid w1].
    by eapply plan_steps_definitions.
  - apply run_instances_outcome.
Qed.

Lemma temp_folder_inj sid1 sid2 :
  temp_folder sid1 = temp_folder sid2 → sid1 = sid2.
Proof.
  unfold temp_folder. intros Heq%string_app_inv_head. by apply uuid_str_inj.
Qed.

(** Paths allocated for different run identifiers differ: the text of
    a UUID has a fixed length, so the folder part of a path is
    determined by the path. *)
Lemma allocated_disjoint sid1 sid2 p1 p2 :
  sid1 ≠ sid2 → allocated sid1 p1 → allocated sid2 p2 → p1 ≠ p2.
Proof.
  intros Hne (w1 & w1' & Hg1) (w2 & w2' & Hg2) Heq.
  apply _generate_temp_filename_path in Hg1 as [u1 ->].
  apply _generate_temp_filename_path in Hg2 as [u2 ->].
  unfold temp_folder in Heq. rewrite !string_app_assoc in Heq.
  apply string_app_inv_head in Heq.
  apply string_app_inj_length in Heq as [Heq _];
    [|by rewrite !uuid_str_length].
  by apply uuid_str_inj in Heq.
Qed.

(** C9. Two runs of a composed sequence whose run identifiers differ
    use different temporary folders, the folder being named after the
    identifier alone.  Every path handed to a step for a tag outside the
    output set of the sequence was allocated in the folder of its run, and
    none of one run is a path of the other. *)
Theorem runs_do_not_share_temp_paths steps exposed seq
    (input_files1 output_files1 input_files2 output_files2
       : gmap string FileRef)
    (w1 w1' w2 w2' : World) instances1 instances2 :
  (2 ≤ length steps)%nat →
  sequence steps exposed = Ok seq →
  dom output_files1 ⊆ output_file_set seq →
  dom output_files2 ⊆ output_file_set seq →
  build_instances steps (output_file_set seq) input_files1 output_files1 w1
  = (instances1, w1') →
  build_instances steps (output_file_set seq) input_files2 output_files2 w2
  = (instances2, w2') →
  (uuid4 w1).1 ≠ (uuid4 w2).1 →
  temp_folder (uuid4 w1).1 ≠ temp_folder (uuid4 w2).1 ∧
  ∀ i1 i2 instance1 instance2 t1 t2 p1 p2,
    instances1 !! i1 = Some instance1 →
    instances2 !! i2 = Some instance2 →
    t1 ∉ output_file_set seq → t2 ∉ output_file_set seq →
    output_paths instance1 !! t1 = Some p1 →
    output_paths instance2 !! t2 = Some p2 →
    (∃ u1, p1 = temp_folder (uuid4 w1).1 ++ "/" ++ uuid_str u1) ∧
    (∃ u2, p2 = temp_folder (uuid4 w2).1 ++ "/" ++ uuid_str u2) ∧
    p1 ≠ p2.
Proof.
  intros Hlen Hseq Hdom1 Hdom2 Hbuild1 Hbuild2 Hne. split.
  { intros Heq. by apply temp_folder_inj in Heq. }
  assert (∀ (input_files output_files : gmap string FileRef) (w w' : World)
            instances i instance t p,
    dom output_files ⊆ output_file_set seq →
    build_instances steps (output_file_set seq) input_files output_files w
    = (instances, w') →
    instances !! i = Some instance →
    t ∉ output_file_set seq →
    output_paths instance !! t = Some p →
    allocated (uuid4 w).1 p) as Htemp.
  { intros input_files output_files w w' instances i instance t p
      Hdom Hbuild Hinst Ht Hp.
    pose proof Hbuild as [Hl Hlook]%build_instances_lookup.
    assert (is_Some (steps !! i)) as [step Hstep].
    { apply lookup_lt_is_Some. rewrite <-Hl. by eapply lookup_lt_Some. }
    destruct (Hlook i step Hstep)
      as (inst' & outs & wa & wb & Hinst' & Hplan).
    assert (inst' = instance) as -> by congruence.
    apply plan_step_spec in Hplan as (_ & _ & _ & Hout & Hnone).
    destruct (decide (t ∈ output_file_set step)) as [Hin|Hni];
      [|by rewrite (Hnone t Hni) in Hp].
    specialize (Hout t Hin). rewrite lookup_fmap in Hout.
    assert (output_files !! t = None) as Hno.
    { apply not_elem_of_dom. intros Hd. by apply Hdom in Hd. }
    rewrite Hno in Hout. simpl in Hout.
    rewrite decide_False in Hout by done.
    destruct Hout as (p' & Hp' & Halloc). congruence. }
  intros i1 i2 instance1 instance2 t1 t2 p1 p2 Hi1 Hi2 Ht1 Ht2 Hp1 Hp2.
  pose proof (Htemp _ _ _ _ _ _ _ _ _ Hdom1 Hbuild1 Hi1 Ht1 Hp1) as Ha1.
  pose proof (Htemp _ _ _ _ _ _ _ _ _ Hdom2 Hbuild2 Hi2 Ht2 Hp2) as Ha2.
  split; [|split; [|by eapply allocated_disjoint]].
  - destruct Ha1 as (wa & wb & Hgen).
    by apply _generate_temp_filename_path in Hgen.
  - destruct Ha2 as (wa & wb & Hgen).
    by apply _generate_temp_filename_path in Hgen.
Qed.

(** ** Composition and the caller's objects *)

Implicit Types h : gmap positive object.

Lemma bind_Ok {A B} (m : StoreM A) (k : A → StoreM B) h a h' :
  m h = (Ok a, h') → (m ≫= k) h = k a h'.
Proof. unfold mbind, store_bind. by intros ->. Qed.

Lemma bind_Raise {A B} (m : StoreM A) (k : A → StoreM B) h e h' :
  m h = (Raise e, h') → (m ≫= k) h = (Raise e, h').
Proof. unfold mbind, store_bind. by intros ->. Qed.

Lemma get_dict_Ok l d h :
  h !! l = Some (ObjDict d) → get_dict l h = (Ok d, h).
Proof. unfold get_dict. by intros ->. Qed.

Lemma get_set_Ok l X h :
  h !! l = Some (ObjSet X) → get_set l h = (Ok X, h).
Proof. unfold get_set. by intros ->. Qed.

Lemma get_list_Ok l steps h :
  h !! l = Some (ObjList steps) → get_list l h = (Ok steps, h).
Proof. unfold get_list. by intros ->. Qed.

Lemma dict_setitem_Ok l d key value h :
  h !! l = Some (ObjDict d) →
  dict_setitem l key value h
  = (Ok (), <[l := ObjDict (<[key := value]> d)]> h).
Proof. unfold dict_setitem. by intros ->. Qed.

Lemma o_scope_input_Ok sc d tag h :
  h !! sc = Some (ObjDict d) →
  o_scope_input sc tag h = (Ok (), <[sc := ObjDict (scope_input d tag)]> h).
Proof.
  intros Hsc. unfold o_scope_input.
  rewrite (bind_Ok _ _ _ _ _ (get_dict_Ok _ _ _ Hsc)).
  unfold scope_input. destruct (d !! tag); by apply dict_setitem_Ok.
Qed.

Lemma o_for_scope_input sc (l : list string) d h :
  h !! sc = Some (ObjDict d) →
  o_for (o_scope_input sc) l h
  = (Ok (), <[sc := ObjDict (foldl scope_input d l)]> h).
Proof.
  revert d h. induction l as [|tag l IH]; intros d h Hsc; cbn [o_for foldl].
  - by rewrite insert_id.
  - rewrite (bind_Ok _ _ _ _ _ (o_scope_input_Ok _ _ tag _ Hsc)).
    rewrite (IH (scope_input d tag)) by apply lookup_insert_eq.
    by rewrite insert_insert_eq.
Qed.

Lemma o_scope_output_eq sc (i : Z) d tag h :
  h !! sc = Some (ObjDict d) →
  o_scope_output sc i tag h
  = match scope_output i d tag with
    | Ok d1 => (Ok (), <[sc := ObjDict d1]> h)
    | Raise e => (Raise e, h)
    end.
Proof.
  intros Hsc. unfold o_scope_output, scope_output.
  rewrite (bind_Ok _ _ _ _ _ (get_dict_Ok _ _ _ Hsc)).
  destruct (d !! tag); [done | by apply dict_setitem_Ok].
Qed.

(** The loop over the output tags leaves the store as it was except
    for the dictionary, and ends as the loop of the resolver does. *)
Lemma o_for_scope_output sc (i : Z) (l : list string) d h :
  h !! sc = Some (ObjDict d) →
  ∃ d', (o_for (o_scope_output sc i) l h).2 = <[sc := ObjDict d']> h ∧
        match for_each (scope_output i) d l with
        | Ok d1 => (o_for (o_scope_output sc i) l h).1 = Ok () ∧ d' = d1
        | Raise e => (o_for (o_scope_output sc i) l h).1 = Raise e
        end.
Proof.
  revert d h.
  induction l as [|tag l IH]; intros d h Hsc; cbn [o_for for_each].
  - exists d. split; [by rewrite insert_id | done].
  - pose proof (o_scope_output_eq sc i d tag h Hsc) as Hout.
    destruct (scope_output i d tag) as [d1|e] eqn:Hpure.
    + rewrite (bind_Ok _ _ _ _ _ Hout).
      change (Ok d1 ≫= ?k) with (k d1). cbv beta.
      destruct (IH d1 (<[sc := ObjDict d1]> h)) as (d' & Hh & Hr);
        [apply lookup_insert_eq|].
      exists d'. split; [by rewrite Hh, insert_insert_eq | done].
    + rewrite (bind_Raise _ _ _ _ _ Hout).
      exists d. split; [by rewrite insert_id | done].
Qed.

Lemma list_getitem_Ok l steps (i : nat) step h :
  h !! l = Some (ObjList steps) → steps !! i = Some step →
  list_getitem l i h = (Ok step, h).
Proof.
  intros Hl Hi. unfold list_getitem.
  rewrite (bind_Ok _ _ _ _ _ (get_list_Ok _ _ _ Hl)). by rewrite Hi.
Qed.

Lemma o_scope_step_spec steps_ref sc (i : nat) steps step d h :
  steps_ref ≠ sc →
  h !! steps_ref = Some (ObjList steps) →
  h !! sc = Some (ObjDict d) →
  steps !! i = Some step →
  ∃ d', (o_scope_step steps_ref sc i h).2 = <[sc := ObjDict d']> h ∧
        match scope_step (Z.of_nat i) d step with
        | Ok d1 => (o_scope_step steps_ref sc i h).1 = Ok () ∧ d' = d1
        | Raise e => (o_scope_step steps_ref sc i h).1 = Raise e
        end.
Proof.
  intros Hne Hsteps Hsc Hi. unfold o_scope_step, scope_step.
  rewrite (bind_Ok _ _ _ _ _ (list_getitem_Ok _ _ _ _ _ Hsteps Hi)).
  rewrite (bind_Ok _ _ _ _ _ (o_for_scope_input _ _ _ _ Hsc)).
  destruct (o_for_scope_output sc (Z.of_nat i)
              (set_iter (output_file_set step))
              (foldl scope_input d (set_iter (input_file_set step)))
              (<[sc := ObjDict (foldl scope_input d
                                  (set_iter (input_file_set step)))]> h))
    as (d' & Hh & Hr); [apply lookup_insert_eq|].
  exists d'. split; [by rewrite Hh, insert_insert_eq | done].
Qed.

Lemma o_for_scope_steps steps_ref sc steps (n i : nat) d h :
  steps_ref ≠ sc →
  h !! steps_ref = Some (ObjList steps) →
  h !! sc = Some (ObjDict d) →
  (i + n = length steps)%nat →
  ∃ d', (o_for (o_scope_step steps_ref sc) (seq i n) h).2
        = <[sc := ObjDict d']> h ∧
        match scope_steps (Z.of_nat i) d (drop i steps) with
        | Ok d1 =>
            (o_for (o_scope_step steps_ref sc) (seq i n) h).1 = Ok () ∧
            d' = d1
        | Raise e =>
            (o_for (o_scope_step steps_ref sc) (seq i n) h).1 = Raise e
        end.
Proof.
  intros Hne. revert i d h.
  induction n as [|n IH]; intros i d h Hsteps Hsc Hlen; cbn [seq o_for].
  - rewrite drop_ge by lia. exists d. split; [by rewrite insert_id | done].
  - assert (is_Some (steps !! i)) as [step Hi]
      by (apply lookup_lt_is_Some; lia).
    rewrite (drop_S _ _ _ Hi). cbn [scope_steps].
    destruct (o_scope_step_spec _ _ _ _ _ _ _ Hne Hsteps Hsc Hi)
      as (d1 & Hh1 & Hr1).
    destruct (o_scope_step steps_ref sc i h) as [r1 h1] eqn:Hstep.
    simpl in Hh1, Hr1. subst h1.
    destruct (scope_step (Z.of_nat i) d step) as [d1'|e] eqn:Hpure.
    + destruct Hr1 as [-> ->].
      rewrite (bind_Ok _ _ _ _ _ Hstep).
      change (Ok d1' ≫= ?k) with (k d1'). cbv beta.
      replace (Z.of_nat i + 1)%Z with (Z.of_nat (S i)) by lia.
      destruct (IH (S i) d1' (<[sc := ObjDict d1']> h)) as (d' & Hh & Hr).
      * by rewrite lookup_insert_ne.
      * apply lookup_insert_eq.
      * lia.
      * exists d'. split; [by rewrite Hh, insert_insert_eq | done].
    + subst r1. rewrite (bind_Raise _ _ _ _ _ Hstep). by exists d1.
Qed.

Lemma o_build_lexical_scope_spec steps_ref steps h :
  h !! steps_ref = Some (ObjList steps) →
  ∃ d', (o_build_lexical_scope steps_ref h).2
        = <[fresh (dom h) := ObjDict d']> h ∧
        match _build_lexical_scope steps with
        | Ok d1 =>
            (o_build_lexical_scope steps_ref h).1 = Ok (fresh (dom h)) ∧
            d' = d1
        | Raise e => (o_build_lexical_scope steps_ref h).1 = Raise e
        end.
Proof.
  intros Hsteps. unfold o_build_lexical_scope, _build_lexical_scope.
  set (sc := fresh (dom h)).
  assert (steps_ref ≠ sc) as Hne.
  { intros ->. apply (is_fresh (dom h)). apply elem_of_dom. eauto. }
  rewrite (bind_Ok (new _) _ h sc (<[sc := ObjDict ∅]> h)) by done.
  assert (<[sc := ObjDict ∅]> h !! steps_ref = Some (ObjList steps))
    as Hsteps1 by (by rewrite lookup_insert_ne).
  rewrite (bind_Ok _ _ _ _ _ (get_list_Ok _ _ _ Hsteps1)).
  destruct (o_for_scope_steps steps_ref sc steps (length steps) 0 ∅
              (<[sc := ObjDict ∅]> h) Hne Hsteps1)
    as (d' & Hh & Hr); [apply lookup_insert_eq | done |].
  rewrite drop_0 in Hr. rewrite insert_insert_eq in Hh.
  destruct (o_for (o_scope_step steps_ref sc) (seq 0 (length steps))
              (<[sc := ObjDict ∅]> h)) as [r1 h1] eqn:Hloop.
  simpl in Hh, Hr. subst h1. exists d'.
  change (scope_steps 0 ∅ steps) with (scope_steps (Z.of_nat 0) ∅ steps).
  destruct (scope_steps (Z.of_nat 0) ∅ steps) as [d1|e].
  - destruct Hr as [-> ->]. by rewrite (bind_Ok _ _ _ _ _ Hloop).
  - subst r1. by rewrite (bind_Raise _ _ _ _ _ Hloop).
Qed.

Lemma lookup_new h l o o' :
  h !! l = Some o → <[fresh (dom h) := o']> h !! l = Some o.
Proof.
  intros Hl. rewrite lookup_insert_ne; [done|].
  intros <-. apply (is_fresh (dom h)). apply elem_of_dom. eauto.
Qed.

Lemma new_subseteq h o : h ⊆ <[fresh (dom h) := o]> h.
Proof. apply insert_subseteq, not_elem_of_dom, is_fresh. Qed.

(** The interface determiner over the store: what was in the store
    stays, and the outcome is that of the determiner on the values of the
    two arguments. *)
Lemma o_determine_sequence_interface_spec steps_ref exposed_ref
    steps exposed h :
  h !! steps_ref = Some (ObjList steps) →
  h !! exposed_ref = Some (ObjSet exposed) →
  h ⊆ (o_determine_sequence_interface steps_ref exposed_ref h).2 ∧
  match _determine_sequence_interface steps exposed with
  | Ok interface =>
      ∃ li lo,
        (o_determine_sequence_interface steps_ref exposed_ref h).1
        = Ok (li, lo) ∧
        (o_determine_sequence_interface steps_ref exposed_ref h).2 !! li
        = Some (ObjSet interface.1) ∧
        (o_determine_sequence_interface steps_ref exposed_ref h).2 !! lo
        = Some (ObjSet interface.2)
  | Raise e =>
      (o_determine_sequence_interface steps_ref exposed_ref h).1 = Raise e
  end.
Proof.
  intros Hsteps Hexp.
  unfold o_determine_sequence_interface, _determine_sequence_interface.
  destruct (o_build_lexical_scope_spec _ _ _ Hsteps) as (d' & Hh1 & Hr1).
  destruct (o_build_lexical_scope steps_ref h) as [r1 h1] eqn:Hbuild.
  simpl in Hh1, Hr1.
  assert (h ⊆ h1) as Hsub1 by (subst h1; apply new_subseteq).
  destruct (_build_lexical_scope steps) as [d|e].
  2:{ subst r1. rewrite (bind_Raise _ _ _ _ _ Hbuild). done. }
  destruct Hr1 as [-> ->]. rewrite (bind_Ok _ _ _ _ _ Hbuild).
  change (Ok d ≫= ?k) with (k d). cbv beta zeta.
  set (sc := fresh (dom h)) in *.
  assert (h1 !! sc = Some (ObjDict d)) as Hsc
    by (subst h1; apply lookup_insert_eq).
  assert (h1 !! exposed_ref = Some (ObjSet exposed)) as Hexp1
    by (by eapply lookup_weaken).
  clear Hbuild Hh1.
  rewrite (bind_Ok _ _ _ _ _ (get_dict_Ok _ _ _ Hsc)).
  set (inputs := dom (filter (λ kv : string * (Z * Z), kv.2.1 = (-1)%Z) d)).
  set (outputs := dom (filter (λ kv : string * (Z * Z), kv.2.2 = 0%Z) d)).
  (* seq_input_file_set *)
  set (l2 := fresh (dom h1)). set (h2 := <[l2 := ObjSet inputs]> h1).
  rewrite (bind_Ok (new (ObjSet inputs)) _ h1 l2 h2) by done.
  assert (h1 ⊆ h2) as Hsub2 by apply new_subseteq.
  assert (h2 !! l2 = Some (ObjSet inputs)) as Hl2 by apply lookup_insert_eq.
  pose proof (lookup_weaken _ _ _ _ Hexp1 Hsub2) as Hexp2.
  (* seq_output_file_set *)
  set (l3 := fresh (dom h2)). set (h3 := <[l3 := ObjSet outputs]> h2).
  rewrite (bind_Ok (new (ObjSet outputs)) _ h2 l3 h3) by done.
  assert (h2 ⊆ h3) as Hsub3 by apply new_subseteq.
  assert (h3 !! l3 = Some (ObjSet outputs)) as Hl3 by apply lookup_insert_eq.
  pose proof (lookup_weaken _ _ _ _ Hexp2 Hsub3) as Hexp3.
  (* set(lexical_scope) *)
  set (lk := fresh (dom h3)). set (hk := <[lk := ObjSet (dom d)]> h3).
  rewrite (bind_Ok (new (ObjSet (dom d))) _ h3 lk hk) by done.
  assert (h3 ⊆ hk) as Hsubk by apply new_subseteq.
  assert (hk !! lk = Some (ObjSet (dom d))) as Hlk by apply lookup_insert_eq.
  pose proof (lookup_weaken _ _ _ _ Hexp3 Hsubk) as Hexpk.
  pose proof (lookup_weaken _ _ _ _ Hl2 (transitivity Hsub3 Hsubk)) as Hl2_k.
  pose proof (lookup_weaken _ _ _ _ Hl3 Hsubk) as Hl3_k.
  rewrite (bind_Ok _ _ _ _ _ (get_set_Ok _ _ _ Hlk)).
  rewrite (bind_Ok _ _ _ _ _ (get_set_Ok _ _ _ Hl2_k)).
  (* non_inputs *)
  set (l4 := fresh (dom hk)).
  set (h4 := <[l4 := ObjSet (dom d ∖ inputs)]> hk).
  rewrite (bind_Ok (new (ObjSet (dom d ∖ inputs))) _ hk l4 h4) by done.
  assert (hk ⊆ h4) as Hsub4 by apply new_subseteq.
  assert (h4 !! l4 = Some (ObjSet (dom d ∖ inputs))) as Hl4
    by apply lookup_insert_eq.
  pose proof (lookup_weaken _ _ _ _ Hexpk Hsub4) as Hexp4.
  pose proof (lookup_weaken _ _ _ _ Hl2_k Hsub4) as Hl2_4.
  pose proof (lookup_weaken _ _ _ _ Hl3_k Hsub4) as Hl3_4.
  rewrite (bind_Ok _ _ _ _ _ (get_set_Ok _ _ _ Hexp4)).
  rewrite (bind_Ok _ _ _ _ _ (get_set_Ok _ _ _ Hl4)).
  (* the difference *)
  set (l5 := fresh (dom h4)).
  set (h5 := <[l5 := ObjSet (exposed ∖ (dom d ∖ inputs))]> h4).
  rewrite (bind_Ok (new (ObjSet (exposed ∖ (dom d ∖ inputs)))) _ h4 l5 h5)
    by done.
  assert (h4 ⊆ h5) as Hsub5 by apply new_subseteq.
  assert (h5 !! l5 = Some (ObjSet (exposed ∖ (dom d ∖ inputs)))) as Hl5
    by apply lookup_insert_eq.
  pose proof (lookup_weaken _ _ _ _ Hexp4 Hsub5) as Hexp5.
  pose proof (lookup_weaken _ _ _ _ Hl2_4 Hsub5) as Hl2_5.
  pose proof (lookup_weaken _ _ _ _ Hl3_4 Hsub5) as Hl3_5.
  rewrite (bind_Ok _ _ _ _ _ (get_set_Ok _ _ _ Hl5)).
  assert (h ⊆ h5) as Hsub by (repeat (etrans; [eassumption|]); done).
  destruct (decide (size (exposed ∖ (dom d ∖ inputs)) ≠ 0)) as [Hbad|Hgood].
  - rewrite (bind_Ok _ _ _ _ _ (get_set_Ok _ _ _ Hexp5)). done.
  - rewrite (bind_Ok _ _ _ _ _ (get_set_Ok _ _ _ Hl3_5)).
    rewrite (bind_Ok _ _ _ _ _ (get_set_Ok _ _ _ Hexp5)).
    set (l6 := fresh (dom h5)).
    set (h6 := <[l6 := ObjSet (outputs ∪ exposed)]> h5).
    rewrite (bind_Ok (new (ObjSet (outputs ∪ exposed))) _ h5 l6 h6) by done.
    assert (h5 ⊆ h6) as Hsub6 by apply new_subseteq.
    split; [by etrans|]. exists l2, l6. split; [done|]. split.
    + by eapply lookup_weaken.
    + apply lookup_insert_eq.
Qed.

Lemma o_sequence_spec steps_ref exposed_ref steps exposed h :
  h !! steps_ref = Some (ObjList steps) →
  h !! exposed_ref = Some (ObjSet exposed) →
  h ⊆ (o_sequence steps_ref exposed_ref h).2 ∧
  (o_sequence steps_ref exposed_ref h).1 = sequence steps exposed.
Proof.
  intros Hsteps Hexp. unfold o_sequence, sequence.
  rewrite (bind_Ok _ _ _ _ _ (get_list_Ok _ _ _ Hsteps)).
  destruct (decide (length steps < 1)); [done|].
  destruct (decide (length steps = 1)).
  { unfold list_getitem.
    rewrite (bind_Ok _ _ _ _ _ (get_list_Ok _ _ _ Hsteps)).
    by destruct (steps !! 0). }
  destruct (o_build_lexical_scope_spec _ _ _ Hsteps) as (d' & Hh1 & Hr1).
  destruct (o_build_lexical_scope steps_ref h) as [r1 h1] eqn:Hbuild.
  simpl in Hh1, Hr1.
  assert (h ⊆ h1) as Hsub1 by (subst h1; apply new_subseteq).
  destruct (_build_lexical_scope steps) as [d|e] eqn:Hscope.
  2:{ subst r1. rewrite (bind_Raise _ _ _ _ _ Hbuild). done. }
  destruct Hr1 as [-> ->]. rewrite (bind_Ok _ _ _ _ _ Hbuild).
  change (Ok d ≫= ?k) with (k d). cbv beta.
  pose proof (lookup_weaken _ _ _ _ Hsteps Hsub1) as Hsteps1.
  pose proof (lookup_weaken _ _ _ _ Hexp Hsub1) as Hexp1.
  destruct (o_determine_sequence_interface_spec _ _ _ _ _ Hsteps1 Hexp1)
    as [Hsub2 Hr2].
  destruct (o_determine_sequence_interface steps_ref exposed_ref h1)
    as [r2 h2] eqn:Hdet.
  simpl in Hsub2, Hr2.
  destruct (_determine_sequence_interface steps exposed) as [interface|e].
  2:{ subst r2. rewrite (bind_Raise _ _ _ _ _ Hdet). split; [by etrans|done]. }
  destruct Hr2 as (li & lo & -> & Hli & Hlo).
  rewrite (bind_Ok _ _ _ _ _ Hdet). cbn [fst snd].
  rewrite (bind_Ok _ _ _ _ _ (get_set_Ok _ _ _ Hli)).
  rewrite (bind_Ok _ _ _ _ _ (get_set_Ok _ _ _ Hlo)).
  pose proof (lookup_weaken _ _ _ _ Hsteps1 Hsub2) as Hsteps2.
  rewrite (bind_Ok _ _ _ _ _ (get_list_Ok _ _ _ Hsteps2)).
  split; [by etrans | done].
Qed.

(** C10. Composition leaves the two objects it is passed as they
    were, along with every other object of the store, and returns what
    [sequence] returns on their values.  Hence the set object that stands
    for the omitted second argument is still empty after any number of
    calls, and every such call composes with an empty exposed set. *)
Theorem sequence_leaves_arguments :
  (∀ steps_ref exposed_ref steps exposed h,
     h !! steps_ref = Some (ObjList steps) →
     h !! exposed_ref = Some (ObjSet exposed) →
     (o_sequence steps_ref exposed_ref h).1 = sequence steps exposed ∧
     (o_sequence steps_ref exposed_ref h).2 !! steps_ref
     = Some (ObjList steps) ∧
     (o_sequence steps_ref exposed_ref h).2 !! exposed_ref
     = Some (ObjSet exposed) ∧
     h ⊆ (o_sequence steps_ref exposed_ref h).2) ∧
  (∀ default calls h,
     h !! default = Some (ObjSet ∅) →
     Forall (λ c, ∃ steps, h !! c = Some (ObjList steps)) calls →
     (o_calls default calls h).2 !! default = Some (ObjSet ∅) ∧
     Forall2 (λ c r, ∃ steps, h !! c = Some (ObjList steps) ∧
                              r = sequence steps ∅)
       calls (o_calls default calls h).1).
Proof.
  split.
  - intros steps_ref exposed_ref steps exposed h Hsteps Hexp.
    destruct (o_sequence_spec _ _ _ _ _ Hsteps Hexp) as [Hsub Hr].
    split; [done|]. split; [by eapply lookup_weaken|].
    split; [by eapply lookup_weaken | done].
  - intros default calls. induction calls as [|c calls IH]; intros h Hd Hall.
    + split; [done | constructor].
    + apply Forall_cons in Hall as [[steps Hc] Hall]. cbn [o_calls].
      destruct (o_sequence_spec _ _ _ _ _ Hc Hd) as [Hsub Hr].
      destruct (o_sequence c default h) as [r h1]. simpl in Hsub, Hr.
      destruct (IH h1) as [Hd' Hrs].
      { by eapply lookup_weaken. }
      { eapply Forall_impl; [exact Hall|]. intros c' [steps' Hc'].
        exists steps'. by eapply lookup_weaken. }
      destruct (o_calls default calls h1) as [rs h2]. simpl in *.
      split; [done|]. constructor; [eauto|].
      clear IH Hd'. revert Hall.
      induction Hrs as [|c' r' calls' rs' (steps' & Hc1 & ->) _ IHrs];
        intros Hall; [constructor|].
      apply Forall_cons in Hall as [[steps0 Hc0] Hall].
      constructor; [|by apply IHrs].
      exists steps0. split; [done|].
      pose proof (lookup_weaken _ _ _ _ Hc0 Hsub). congruence.
Qed.

End Properties.

(** * Further properties of the combinator *)

Section Further.
Context `{Runtime} `{!StepBase}.

Implicit Types (steps : list StepDefinition) (step : StepDefinition).
Implicit Types (scope : gmap string (Z * Z)) (t tag : string).

(** ** Tags read and written by a list of steps *)

Lemma consumed_by_app steps1 steps2 t :
  consumed_by (steps1 ++ steps2) t
  ↔ consumed_by steps1 t ∨ consumed_by steps2 t.
Proof.
  unfold consumed_by. split.
  - intros (s & [Hs|Hs]%elem_of_app & Ht); eauto.
  - intros [(s & Hs & Ht)|(s & Hs & Ht)]; exists s;
      (split; [apply elem_of_app; eauto | done]).
Qed.

Lemma produced_by_app steps1 steps2 t :
  produced_by (steps1 ++ steps2) t
  ↔ produced_by steps1 t ∨ produced_by steps2 t.
Proof.
  unfold produced_by. split.
  - intros (s & [Hs|Hs]%elem_of_app & Ht); eauto.
  - intros [(s & Hs & Ht)|(s & Hs & Ht)]; exists s;
      (split; [apply elem_of_app; eauto | done]).
Qed.

Lemma consumed_by_dec steps t : consumed_by steps t ∨ ¬ consumed_by steps t.
Proof.
  induction steps as [|s steps IH].
  - right. apply consumed_by_nil.
  - rewrite consumed_by_cons.
    destruct (decide (t ∈ input_file_set s)); [by left; left|].
    destruct IH; [by left; right | right; tauto].
Qed.

Lemma produced_by_dec steps t : produced_by steps t ∨ ¬ produced_by steps t.
Proof.
  induction steps as [|s steps IH].
  - right. apply produced_by_nil.
  - rewrite produced_by_cons.
    destruct (decide (t ∈ output_file_set s)); [by left; left|].
    destruct IH; [by left; right | right; tauto].
Qed.

Lemma consumed_by_lookup steps (i : nat) step t :
  steps !! i = Some step → t ∈ input_file_set step → consumed_by steps t.
Proof. intros Hi Ht. exists step. split; [by eapply list_elem_of_lookup_2 | done]. Qed.

Lemma produced_by_lookup steps (i : nat) step t :
  steps !! i = Some step → t ∈ output_file_set step → produced_by steps t.
Proof. intros Hi Ht. exists step. split; [by eapply list_elem_of_lookup_2 | done]. Qed.

(** A conflict at position [j], in terms of positions. *)
Lemma has_conflict_at steps (j : nat) step t :
  steps !! j = Some step →
  conflict_at (take j steps) step t →
  has_conflict steps.
Proof.
  intros Hj Hc. exists (take j steps), step, (drop (S j) steps), t.
  split; [|done]. by rewrite take_drop_middle.
Qed.

(** A longer list inherits the conflicts of its prefixes. *)
Lemma has_conflict_prefix steps1 steps2 :
  has_conflict steps1 → has_conflict (steps1 ++ steps2).
Proof.
  intros (pre & step & post & t & -> & Hc).
  exists pre, step, (post ++ steps2)%list, t. split; [|done].
  by rewrite <-app_assoc.
Qed.

(** The resolver stops at the first step that has a conflict. *)
Lemma scope_steps_Raise_first past scope steps e :
  scope_inv past scope →
  scope_steps (Z.of_nat (length past)) scope steps = Raise e →
  ∃ pre step post t scope',
    steps = (pre ++ step :: post)%list ∧
    scope_steps (Z.of_nat (length past)) scope pre = Ok scope' ∧
    conflict_at (past ++ pre) step t ∧
    e = BakerError (conflict_message t).
Proof.
  revert past scope.
  induction steps as [|s steps IH]; intros past scope Hinv; cbn [scope_steps].
  - done.
  - destruct (scope_step (Z.of_nat (length past)) scope s)
      as [scope1|e1] eqn:Hstep.
    + change (Ok scope1 ≫= ?k) with (k scope1). cbv beta.
      pose proof (scope_inv_step _ _ _ _ Hinv Hstep) as Hinv1.
      rewrite (scope_steps_snoc_index past s). intros Hrest.
      destruct (IH _ _ Hinv1 Hrest)
        as (pre & step & post & t & scope' & -> & Hpre & Hc & ->).
      exists (s :: pre), step, post, t, scope'.
      split; [done|]. split.
      { cbn [scope_steps]. rewrite Hstep.
        change (Ok scope1 ≫= ?k) with (k scope1). cbv beta.
        by rewrite (scope_steps_snoc_index past s). }
      split; [|done]. by rewrite <-app_assoc in Hc.
    + intros [= <-].
      apply scope_step_Raise in Hstep as (t & Ho & Hc & ->).
      exists [], s, steps, t, scope. split; [done|]. split; [done|].
      split; [|done]. rewrite app_nil_r. split; [done|].
      destruct Hc as [Hc|Hc]; [by left|]. right.
      by apply (inv_dom _ _ Hinv).
Qed.

(** ** The scope resolver *)

(** X1. The scope resolver succeeds exactly on the step lists without a
    conflict, whatever their length.  When it raises, it raises at the
    first step that has a conflict: the steps before it resolve, and the
    error is the composition error whose message names a tag that
    conflicts at that step. *)
Theorem scope_resolves_iff_no_conflict steps :
  ((∃ scope, _build_lexical_scope steps = Ok scope) ↔ ¬ has_conflict steps) ∧
  (∀ e, _build_lexical_scope steps = Raise e →
     ∃ pre step post t,
       steps = (pre ++ step :: post)%list ∧
       ¬ has_conflict pre ∧
       conflict_at pre step t ∧
       e = BakerError (conflict_message t)).
Proof.
  split.
  - split.
    + intros [scope Hok]. by apply _build_lexical_scope_Ok in Hok as [_ Hnc].
    + intros Hnc. destruct (_build_lexical_scope steps) as [scope|e] eqn:Hb;
        [eauto|].
      apply _build_lexical_scope_Raise in Hb
        as (pre & step & post & t & Heq & Hc & _).
      destruct Hnc. by exists pre, step, post, t.
  - intros e Hr.
    destruct (scope_steps_Raise_first [] ∅ steps e scope_inv_nil Hr)
      as (pre & step & post & t & scope' & Heq & Hpre & Hc & He).
    exists pre, step, post, t. split; [done|]. split; [|done].
    by apply _build_lexical_scope_Ok in Hpre as [_ Hnc].
Qed.

(** X2. What a resolved scope holds.  A tag is a key exactly when some
    step reads or writes it.  The reference count of a key is the number of
    steps that read it.  The origin is -1 when no step writes the tag, and
    otherwise the index of a step that writes it. *)
Theorem resolved_scope_entries steps scope :
  _build_lexical_scope steps = Ok scope →
  ∀ t,
    (is_Some (scope !! t) ↔ consumed_by steps t ∨ produced_by steps t) ∧
    (∀ ref, scope !! t = Some ref →
       ref.2 = Z.of_nat (consumers t steps) ∧
       (ref.1 = (-1)%Z ↔ ¬ produced_by steps t) ∧
       (ref.1 ≠ (-1)%Z →
        ∃ k step, ref.1 = Z.of_nat k ∧ steps !! k = Some step ∧
                  t ∈ output_file_set step)).
Proof.
  intros Hok t.
  apply _build_lexical_scope_Ok in Hok as [[Hdom Horigin Hcount] _].
  split; [apply Hdom|]. intros ref Href.
  split; [by apply Hcount|].
  destruct (Horigin _ _ Href) as [[Hext Hnp]|(k & step & Hk & Hstep & Ht)].
  - split; [done|]. intros Hne. done.
  - split; [|eauto]. split; [lia|].
    intros Hnp. destruct Hnp. by eapply produced_by_lookup.
Qed.

(** X3. In a step list that resolves, data flows forward: a tag has at
    most one producing step, and a step that reads a tag which some step
    produces comes strictly after the producer. *)
Theorem data_flows_forward steps scope (i j : nat) step_i step_j t :
  _build_lexical_scope steps = Ok scope →
  steps !! i = Some step_i →
  steps !! j = Some step_j →
  t ∈ output_file_set step_j →
  (t ∈ output_file_set step_i → i = j) ∧
  (t ∈ input_file_set step_i → (j < i)%nat).
Proof.
  intros Hok Hi Hj Hout.
  apply _build_lexical_scope_Ok in Hok as [_ Hnc].
  assert (∀ (a b : nat) sa sb,
    steps !! a = Some sa → steps !! b = Some sb → (a < b)%nat →
    t ∈ output_file_set sb →
    t ∈ input_file_set sa ∨ t ∈ output_file_set sa → False) as Hlate.
  { intros a b sa sb Ha Hb Hab Hob Hsa. apply Hnc.
    apply (has_conflict_at steps b sb t Hb). split; [done|]. right.
    assert (take b steps !! a = Some sa) as Hta
      by (by rewrite lookup_take_lt).
    destruct Hsa; [left | right].
    - by eapply consumed_by_lookup.
    - by eapply produced_by_lookup. }
  split.
  - intros Hout_i.
    destruct (Nat.lt_trichotomy i j) as [Hlt|[Heq|Hgt]]; [|done|].
    + exfalso. eapply (Hlate i j); eauto.
    + exfalso. eapply (Hlate j i); eauto.
  - intros Hin_i.
    destruct (Nat.lt_trichotomy i j) as [Hlt|[Heq|Hgt]]; [| |done].
    + exfalso. eapply (Hlate i j); eauto.
    + subst j. assert (step_j = step_i) as -> by congruence.
      exfalso. apply Hnc.
      apply (has_conflict_at steps i step_i t Hi). split; [done|]. by left.
Qed.

(** ** Composition in terms of the steps *)

(** An exposed tag passes the check exactly when some step writes it. *)
Lemma offending_iff steps scope (exposed : gset string) t :
  scope_inv steps scope →
  offending scope exposed t ↔ t ∈ exposed ∧ ¬ produced_by steps t.
Proof.
  intros Hinv. unfold offending. split.
  - intros [He Hbad]. split; [done|]. intros Hp.
    destruct Hbad as [Hnone|Hext].
    + assert (is_Some (scope !! t)) as [? ?]; [|congruence].
      apply (inv_dom _ _ Hinv). by right.
    + apply elem_of_external_tags, (external_tags_spec steps) in Hext;
        [|done]. by destruct Hext.
  - intros [He Hnp]. split; [done|].
    destruct (scope !! t) as [ref|] eqn:Hs; [|by left]. right.
    exists ref. split; [done|].
    destruct (inv_origin _ _ Hinv _ _ Hs) as [[? _]|(k & s & _ & Hk & Ht)];
      [done|].
    destruct Hnp. by eapply produced_by_lookup.
Qed.

Lemma sequence_composes steps (exposed : gset string) :
  (2 ≤ length steps)%nat →
  ¬ has_conflict steps →
  (∀ t, t ∈ exposed → produced_by steps t) →
  ∃ scope,
    _build_lexical_scope steps = Ok scope ∧
    sequence steps exposed
    = Ok (mkStepDefinition (external_tags scope)
            (unreferenced_tags scope ∪ exposed)
            (Sequence_script steps (unreferenced_tags scope ∪ exposed))).
Proof.
  intros Hlen Hnc Hexp.
  destruct (_build_lexical_scope steps) as [scope|e] eqn:Hscope.
  - exists scope. split; [done|].
    rewrite (sequence_resolved _ _ _ Hlen Hscope).
    rewrite decide_False; [done|]. rewrite exposure_check.
    intros [t Hoff]. apply _build_lexical_scope_Ok in Hscope as [Hinv _].
    apply (offending_iff steps) in Hoff as [He Hnp]; [|done].
    by apply Hnp, Hexp.
  - apply _build_lexical_scope_Raise in Hscope
      as (pre & step & post & t & Heq & Hc & _).
    destruct Hnc. by exists pre, step, post, t.
Qed.

Lemma sequence_Ok_steps steps (exposed : gset string) seq :
  (2 ≤ length steps)%nat →
  sequence steps exposed = Ok seq →
  ¬ has_conflict steps ∧
  (∀ t, t ∈ exposed → produced_by steps t) ∧
  (∀ t, t ∈ input_file_set seq
        ↔ consumed_by steps t ∧ ¬ produced_by steps t) ∧
  (∀ t, t ∈ output_file_set seq
        ↔ (produced_by steps t ∧ ¬ consumed_by steps t) ∨ t ∈ exposed).
Proof.
  intros Hlen Hseq.
  destruct (sequence_Ok _ _ _ Hlen Hseq) as (scope & Hscope & Hnoff & ->).
  apply _build_lexical_scope_Ok in Hscope as [Hinv Hnc].
  split; [done|]. split; [|split].
  - intros t He. destruct (produced_by_dec steps t) as [|Hnp]; [done|].
    destruct Hnoff. exists t. by apply (offending_iff steps).
  - intros t. simpl. by apply external_tags_spec.
  - intros t. simpl. rewrite elem_of_union.
    by rewrite (unreferenced_tags_spec steps).
Qed.

(** X4. A list of at least two steps composes exactly when it has no
    conflict and every exposed tag is written by some step. *)
Theorem sequence_composes_iff steps (exposed : gset string) :
  (2 ≤ length steps)%nat →
  (∃ seq, sequence steps exposed = Ok seq)
  ↔ ¬ has_conflict steps ∧ ∀ t, t ∈ exposed → produced_by steps t.
Proof.
  intros Hlen. split.
  - intros [seq Hseq].
    destruct (sequence_Ok_steps _ _ _ Hlen Hseq) as (Hnc & Hexp & _).
    done.
  - intros [Hnc Hexp].
    destruct (sequence_composes steps exposed Hlen Hnc Hexp)
      as (scope & _ & Hseq). eauto.
Qed.

(** X5. The interface of a composite in terms of its steps: the input
    tags are the tags that some step reads and no step writes; the output
    tags are the tags that some step writes and no step reads, together
    with the exposed tags; no tag is both an input and an output of the
    composite, and every output tag is written by some step. *)
Theorem sequence_interface_from_steps steps (exposed : gset string) seq :
  (2 ≤ length steps)%nat →
  sequence steps exposed = Ok seq →
  (∀ t, t ∈ input_file_set seq
        ↔ consumed_by steps t ∧ ¬ produced_by steps t) ∧
  (∀ t, t ∈ output_file_set seq
        ↔ (produced_by steps t ∧ ¬ consumed_by steps t) ∨ t ∈ exposed) ∧
  input_file_set seq ## output_file_set seq ∧
  (∀ t, t ∈ output_file_set seq → produced_by steps t).
Proof.
  intros Hlen Hseq.
  destruct (sequence_Ok_steps _ _ _ Hlen Hseq) as (_ & Hexp & Hin & Hout).
  split; [done|]. split; [done|].
  assert (∀ t, t ∈ output_file_set seq → produced_by steps t) as Hprod.
  { intros t [[Hp _]|He]%Hout; [done | by apply Hexp]. }
  split; [|done].
  intros t [_ Hnp]%Hin Ho. by apply Hnp, Hprod.
Qed.

(** X6. Exposing tags changes nothing but the output set: when a list
    composes with some tags exposed, it composes with any part of them
    exposed, to a composite with the same input set whose output set lacks
    at most the tags left out. *)
Theorem exposure_only_adds_outputs steps (exposed exposed' : gset string) seq :
  (2 ≤ length steps)%nat →
  sequence steps exposed = Ok seq →
  exposed' ⊆ exposed →
  ∃ seq',
    sequence steps exposed' = Ok seq' ∧
    input_file_set seq' = input_file_set seq ∧
    output_file_set seq' ∪ exposed = output_file_set seq.
Proof.
  intros Hlen Hseq Hsub.
  destruct (sequence_Ok _ _ _ Hlen Hseq) as (scope & Hscope & Hnoff & ->).
  eexists. split.
  - rewrite (sequence_resolved _ _ _ Hlen Hscope).
    rewrite decide_False; [done|]. rewrite exposure_check.
    intros [t [He Hbad]]. apply Hnoff. exists t. split; [|done].
    by apply Hsub.
  - simpl. split; [done|]. set_solver.
Qed.

(** X14. Nesting.  Let the steps [inner_steps] followed by [rest]
    compose, and let no step of [rest] read a tag that is both written
    and read inside [inner_steps].  Then [inner_steps] compose on their
    own, the composite followed by [rest] composes as well, and it has
    the input and output sets of the flat composition. *)
Theorem nested_sequence_interface inner_steps rest flat :
  (2 ≤ length inner_steps)%nat →
  (1 ≤ length rest)%nat →
  sequence (inner_steps ++ rest) ∅ = Ok flat →
  (∀ t, consumed_by rest t →
        ¬ (produced_by inner_steps t ∧ consumed_by inner_steps t)) →
  ∃ inner nested,
    sequence inner_steps ∅ = Ok inner ∧
    sequence (inner :: rest) ∅ = Ok nested ∧
    input_file_set nested = input_file_set flat ∧
    output_file_set nested = output_file_set flat.
Proof.
  intros Hlen1 Hlen2 Hflat Hread.
  assert (2 ≤ length (inner_steps ++ rest))%nat as Hlen
    by (rewrite length_app; lia).
  destruct (sequence_Ok_steps _ _ _ Hlen Hflat) as (Hnc & _ & HFin & HFout).
  (* the inner steps compose *)
  destruct (sequence_composes inner_steps ∅ Hlen1) as (scope1 & _ & Hinner).
  { intros Hc. by apply Hnc, has_conflict_prefix. }
  { intros t Ht. by apply not_elem_of_empty in Ht. }
  set (inner := mkStepDefinition (external_tags scope1)
                  (unreferenced_tags scope1 ∪ ∅)
                  (Sequence_script inner_steps (unreferenced_tags scope1 ∪ ∅)))
    in *.
  destruct (sequence_Ok_steps _ _ _ Hlen1 Hinner) as (_ & _ & HIin & HIout).
  clearbody inner.
  assert (∀ t, consumed_by [inner] t
               ↔ consumed_by inner_steps t ∧ ¬ produced_by inner_steps t)
    as Hc1.
  { intros t. rewrite consumed_by_cons, HIin.
    pose proof (consumed_by_nil t). tauto. }
  assert (∀ t, produced_by [inner] t
               ↔ produced_by inner_steps t ∧ ¬ consumed_by inner_steps t)
    as Hp1.
  { intros t. rewrite produced_by_cons, HIout.
    pose proof (produced_by_nil t). pose proof (not_elem_of_empty (C:=gset string) t).
    tauto. }
  (* a tag written in [rest] is not touched in [inner_steps] *)
  assert (∀ pre step post t,
    rest = (pre ++ step :: post)%list → t ∈ output_file_set step →
    ¬ (t ∈ input_file_set step ∨
       consumed_by (inner_steps ++ pre) t ∨
       produced_by (inner_steps ++ pre) t)) as Hfresh.
  { intros pre step post t -> Ho Hc. apply Hnc.
    exists (inner_steps ++ pre)%list, step, post, t.
    split; [by rewrite <-app_assoc | done]. }
  assert (∀ t, produced_by rest t →
               ¬ consumed_by inner_steps t ∧ ¬ produced_by inner_steps t)
    as Hp2.
  { intros t (step & [k Hk]%list_elem_of_lookup_1 & Ho).
    pose proof (Hfresh (take k rest) step (drop (S k) rest) t
                  (eq_sym (take_drop_middle _ _ _ Hk)) Ho) as Hf.
    rewrite consumed_by_app, produced_by_app in Hf. tauto. }
  (* the nested list composes *)
  assert (2 ≤ length (inner :: rest))%nat as Hlen' by (simpl; lia).
  destruct (sequence_composes (inner :: rest) ∅ Hlen') as (scope2 & _ & Hnested).
  { intros (pre & step & post & t & Heq & [Ho Hc]).
    destruct pre as [|s0 pre]; simpl in Heq; injection Heq as Hhd Htl.
    - subst step post.
      assert (produced_by [inner] t) as Hp by (apply produced_by_cons; by left).
      apply Hp1 in Hp as [Hp Hnc1].
      destruct Hc as [Hi|[Hc|Hc]].
      + apply HIin in Hi as [_ Hnp]. done.
      + by apply consumed_by_nil in Hc.
      + by apply produced_by_nil in Hc.
    - subst s0. apply (Hfresh pre step post t Htl Ho).
      destruct Hc as [Hi|[Hc|Hc]]; [by left|right; left|right; right].
      + change (inner :: pre) with ([inner] ++ pre)%list in Hc.
        rewrite consumed_by_app in Hc. rewrite consumed_by_app.
        destruct Hc as [Hc|Hc]; [left; by apply Hc1 in Hc as [? _] | by right].
      + change (inner :: pre) with ([inner] ++ pre)%list in Hc.
        rewrite produced_by_app in Hc. rewrite produced_by_app.
        destruct Hc as [Hc|Hc]; [left; by apply Hp1 in Hc as [? _] | by right]. }
  { intros t Ht. by apply not_elem_of_empty in Ht. }
  eexists inner, _. split; [done|]. split; [exact Hnested|].
  destruct (sequence_Ok_steps _ _ _ Hlen' Hnested) as (_ & _ & HNin & HNout).
  split; apply set_eq; intros t.
  - rewrite HNin, HFin.
    change (inner :: rest) with ([inner] ++ rest)%list.
    rewrite !consumed_by_app, !produced_by_app, Hc1, Hp1.
    specialize (Hread t). specialize (Hp2 t).
    destruct (consumed_by_dec inner_steps t), (produced_by_dec inner_steps t);
      tauto.
  - rewrite HNout, HFout.
    change (inner :: rest) with ([inner] ++ rest)%list.
    rewrite !consumed_by_app, !produced_by_app, Hc1, Hp1.
    specialize (Hread t). specialize (Hp2 t).
    pose proof (not_elem_of_empty (C:=gset string) t).
    destruct (consumed_by_dec inner_steps t), (produced_by_dec inner_steps t);
      tauto.
Qed.

(** X15. The errors of composition.  [sequence] raises in three cases
    only, and always the composition error: on the empty list; on a list of
    at least two steps with a conflict, where the message names a tag that
    conflicts at the first step with a conflict, whatever is exposed; and
    on a list of at least two steps without a conflict when some exposed
    tag is written by no step, where the message lists the exposed tags. *)
Theorem sequence_errors steps (exposed : gset string) e :
  sequence steps exposed = Raise e →
  (steps = [] ∧ e = BakerError "Cannot sequence fewer than 1 event") ∨
  ((2 ≤ length steps)%nat ∧
   ∃ pre step post t,
     steps = (pre ++ step :: post)%list ∧ ¬ has_conflict pre ∧
     conflict_at pre step t ∧ e = BakerError (conflict_message t)) ∨
  ((2 ≤ length steps)%nat ∧ ¬ has_conflict steps ∧
   (∃ t, t ∈ exposed ∧ ¬ produced_by steps t) ∧
   e = BakerError (expose_message (join ", " (set_iter exposed)))).
Proof.
  intros Hraise. destruct steps as [|s1 [|s2 steps]].
  - left. split; [done|]. by injection Hraise as <-.
  - done.
  - right. assert (2 ≤ length (s1 :: s2 :: steps))%nat as Hlen
      by (simpl; lia).
    destruct (_build_lexical_scope (s1 :: s2 :: steps)) as [scope|e0]
      eqn:Hscope.
    + right. split; [done|].
      rewrite (sequence_resolved _ _ _ Hlen Hscope) in Hraise.
      destruct (decide (size _ ≠ 0)) as [Hbad|]; [|done].
      injection Hraise as <-.
      apply exposure_check in Hbad as [t Hoff].
      apply _build_lexical_scope_Ok in Hscope as [Hinv Hnc].
      split; [done|]. split; [|done]. exists t.
      by apply (offending_iff (s1 :: s2 :: steps) scope).
    + left. split; [done|].
      rewrite sequence_eq, Hscope in Hraise by done.
      injection Hraise as <-.
      destruct (scope_steps_Raise_first [] ∅ _ e0 scope_inv_nil Hscope)
        as (pre & step & post & t & scope' & Heq & Hpre & Hc & He).
      exists pre, step, post, t. split; [done|]. split; [|done].
      by apply _build_lexical_scope_Ok in Hpre as [_ Hnc].
Qed.

(** ** The plan of a run, for any files the run is given *)

(** X7. The planner builds one instance per step, in order, and hands
    an instance paths for tags of its own step only: no input path for a
    tag outside the declared input set of the step, no output path for a
    tag outside its declared output set. *)
Theorem planned_paths_within_declared_tags steps (out_set : gset string)
    (input_files output_files : gmap string FileRef) (w w' : World)
    instances :
  build_instances steps out_set input_files output_files w
  = (instances, w') →
  length instances = length steps ∧
  ∀ i instance, instances !! i = Some instance →
    ∃ step, steps !! i = Some step ∧
            definition instance = step ∧
            dom (input_paths instance) ⊆ input_file_set step ∧
            dom (output_paths instance) ⊆ output_file_set step.
Proof.
  intros Hbuild. pose proof Hbuild as [Hlen Hlook]%build_instances_lookup.
  split; [done|]. intros i instance Hinst.
  assert (is_Some (steps !! i)) as [step Hstep].
  { apply lookup_lt_is_Some. rewrite <-Hlen. by eapply lookup_lt_Some. }
  exists step. split; [done|].
  destruct (Hlook i step Hstep) as (inst' & outs & w1 & w2 & Hinst' & Hplan).
  assert (inst' = instance) as -> by congruence.
  apply plan_step_spec in Hplan as (Hdef & _ & Hin & _ & Hnone).
  split; [done|]. split.
  - intros t [p Hp]%elem_of_dom. rewrite Hin in Hp.
    by destruct (decide (t ∈ input_file_set step)).
  - intros t [p Hp]%elem_of_dom.
    destruct (decide (t ∈ output_file_set step)) as [|Hni]; [done|].
    by rewrite (Hnone t Hni) in Hp.
Qed.

(** X8. What a step writes is what the next step reads: when the
    instance of step [j] is given the path [p] for a tag, and step [j+1]
    declares that tag as an input, its instance is given [p] for it,
    whatever external paths the run has. *)
Theorem outputs_feed_next_step steps (out_set : gset string)
    (input_files output_files : gmap string FileRef) (w w' : World)
    instances (j : nat) producer consumer step t p :
  build_instances steps out_set input_files output_files w
  = (instances, w') →
  instances !! j = Some producer →
  instances !! S j = Some consumer →
  steps !! S j = Some step →
  t ∈ input_file_set step →
  output_paths producer !! t = Some p →
  input_paths consumer !! t = Some p.
Proof.
  intros Hbuild Hprod Hcons Hstep Ht Hp.
  destruct (planned_input_paths _ _ _ _ _ _ _ _ _ _ t Hbuild Hstep Hcons)
    as [_ ->].
  rewrite decide_True by done. simpl. by rewrite Hprod, Hp.
Qed.

(** X9. When a plan is complete.  In a run that is given an output
    path for exactly the tags of [out_set], every instance has a path for
    each output tag of its step, and it has a path for each input tag of
    its step exactly when each of them has an external input path or is an
    output tag of the step just before. *)
Theorem plan_complete_iff steps (out_set : gset string)
    (input_files output_files : gmap string FileRef) (w w' : World)
    instances (i : nat) step instance :
  dom output_files = out_set →
  build_instances steps out_set input_files output_files w
  = (instances, w') →
  steps !! i = Some step →
  instances !! i = Some instance →
  dom (output_paths instance) = output_file_set step ∧
  (dom (input_paths instance) = input_file_set step
   ↔ ∀ t, t ∈ input_file_set step →
          t ∈ dom input_files ∨
          ∃ j before, i = S j ∧ steps !! j = Some before ∧
                      t ∈ output_file_set before).
Proof.
  intros Hdom Hbuild Hstep Hinst. split.
  - apply set_eq. intros t. rewrite elem_of_dom.
    by eapply planned_outputs_covered.
  - pose proof (λ t, planned_inputs_covered _ _ _ _ _ _ _ _ _ _ t
                       Hdom Hbuild Hstep Hinst) as Hcov.
    split.
    + intros Heq t Ht. rewrite <-Heq in Ht.
      apply elem_of_dom, Hcov in Ht as [_ Ht]. done.
    + intros Hall. apply set_eq. intros t. rewrite elem_of_dom, Hcov.
      split; [by intros [? _] | eauto].
Qed.

Lemma set_iter_empty (X : gset string) : X = ∅ → set_iter X = [].
Proof.
  intros ->. apply Permutation_nil_r.
  rewrite <-(elements_empty (C:=gset string)). apply set_iter_perm.
Qed.

Lemma plan_steps_no_intermediates sid (out_set : gset string)
    (seq_in seq_out prev : gmap string string) steps (w w' : World)
    instances :
  (∀ step, step ∈ steps → output_file_set step ⊆ out_set) →
  plan_steps sid out_set seq_in seq_out prev steps w = (instances, w') →
  w' = w.
Proof.
  revert prev w instances.
  induction steps as [|s steps IH]; intros prev w instances Hsub;
    cbn [plan_steps].
  - by intros [= <- <-].
  - unfold plan_step.
    rewrite (set_iter_empty (output_file_set s ∖ out_set)).
    2:{ apply set_eq. intros t. rewrite elem_of_difference.
        pose proof (Hsub s (list_elem_of_here _ _) t).
        pose proof (not_elem_of_empty (C:=gset string) t). tauto. }
    unfold generate_paths. cbn [foldl].
    destruct (plan_steps sid out_set seq_in seq_out _ steps w)
      as [rest w2] eqn:Hrest.
    intros [= <- <-]. eapply IH; [|exact Hrest].
    intros step Hstep. apply Hsub. by right.
Qed.

(** X10. A run without internal intermediates leaves no trace of its
    own: when every output tag of every step is in the output set of the
    sequence, planning draws the run identifier and nothing else (no
    folder is probed or created, no further identifier is drawn), and
    every output path of every instance is one of the caller's. *)
Theorem no_intermediates_no_temp_files steps (out_set : gset string)
    (input_files output_files : gmap string FileRef) (w w' : World)
    instances :
  (∀ step, step ∈ steps → output_file_set step ⊆ out_set) →
  build_instances steps out_set input_files output_files w
  = (instances, w') →
  w' = (uuid4 w).2 ∧
  ∀ i instance t p,
    instances !! i = Some instance →
    output_paths instance !! t = Some p →
    ∃ ref, output_files !! t = Some ref ∧ p = path ref.
Proof.
  intros Hsub Hbuild. split.
  - unfold build_instances in Hbuild.
    destruct (uuid4 w) as [sid w1]. simpl.
    by eapply plan_steps_no_intermediates.
  - intros i instance t p Hinst Hp.
    pose proof Hbuild as [Hlen Hlook]%build_instances_lookup.
    assert (is_Some (steps !! i)) as [step Hstep].
    { apply lookup_lt_is_Some. rewrite <-Hlen. by eapply lookup_lt_Some. }
    destruct (Hlook i step Hstep) as (inst' & outs & w1 & w2 & Hinst' & Hplan).
    assert (inst' = instance) as -> by congruence.
    apply plan_step_spec in Hplan as (_ & _ & _ & Hout & Hnone).
    destruct (decide (t ∈ output_file_set step)) as [Hin|Hni];
      [|by rewrite (Hnone t Hni) in Hp].
    specialize (Hout t Hin). rewrite lookup_fmap in Hout.
    destruct (output_files !! t) as [ref|]; simpl in Hout.
    + exists ref. split; [done|]. congruence.
    + rewrite decide_True in Hout; [congruence|].
      apply (Hsub step); [by eapply list_elem_of_lookup_2 | done].
Qed.

(** ** Temporary files *)

Lemma generate_paths_world_existing sid (tags : list string)
    (acc : gmap string string) (w : World) :
  (∀ d w0, os_path_exists d (uuid4 w0).2 = os_path_exists d w0) →
  os_path_exists (temp_folder sid) w = true →
  (foldl (λ acc tag,
            let '(p, w') := _generate_temp_filename sid acc.2 in
            (<[tag := p]> acc.1, w'))
         (acc, w) tags).2
  = Nat.iter (length tags) (λ w0, (uuid4 w0).2) w ∧
  os_path_exists (temp_folder sid)
    (Nat.iter (length tags) (λ w0, (uuid4 w0).2) w) = true.
Proof.
  intros Hdraw. revert acc w.
  induction tags as [|a tags IH]; intros acc w Hex; [done|].
  cbn [foldl length fst snd]. rewrite Nat.iter_succ_r.
  rewrite (_generate_temp_filename_eq sid w), Hex.
  apply IH. by rewrite Hdraw.
Qed.

(** The allocations for one step create the folder before the first
    draw if it is not there, and do nothing else but draw one identifier
    per tag; afterwards the folder exists. *)
Lemma generate_paths_world sid (tags : list string) (w : World) :
  (∀ d w0, os_path_exists d (os_mkdir d w0) = true) →
  (∀ d w0, os_path_exists d (uuid4 w0).2 = os_path_exists d w0) →
  tags ≠ [] →
  (generate_paths sid tags w).2
  = Nat.iter (length tags) (λ w0, (uuid4 w0).2)
      (if os_path_exists (temp_folder sid) w then w
       else os_mkdir (temp_folder sid) w) ∧
  os_path_exists (temp_folder sid) (generate_paths sid tags w).2 = true.
Proof.
  intros Hmk Hdraw Hne. destruct tags as [|a tags]; [done|].
  unfold generate_paths. cbn [foldl length fst snd].
  rewrite Nat.iter_succ_r.
  rewrite (_generate_temp_filename_eq sid w).
  set (w0 := if os_path_exists (temp_folder sid) w then w
             else os_mkdir (temp_folder sid) w).
  assert (os_path_exists (temp_folder sid) w0 = true) as Hex0.
  { unfold w0. destruct (os_path_exists (temp_folder sid) w) eqn:Hex;
      [done | apply Hmk]. }
  assert (os_path_exists (temp_folder sid) (uuid4 w0).2 = true) as Hex1
    by (by rewrite Hdraw).
  destruct (generate_paths_world_existing sid tags
              (<[a := temp_folder sid ++ "/" ++ uuid_str (uuid4 w0).1]> ∅)
              (uuid4 w0).2 Hdraw Hex1) as [Hw Hex].
  split; [exact Hw | by rewrite Hw].
Qed.

Lemma length_set_iter (X : gset string) : length (set_iter X) = size X.
Proof. by rewrite (set_iter_perm X). Qed.

Lemma temp_count_cons (out_set : gset string) step steps :
  temp_count out_set (step :: steps)
  = (size (output_file_set step ∖ out_set) + temp_count out_set steps)%nat.
Proof. reflexivity. Qed.

Lemma plan_steps_world_existing sid (out_set : gset string)
    (seq_in seq_out prev : gmap string string) steps (w w' : World)
    instances :
  (∀ d w0, os_path_exists d (uuid4 w0).2 = os_path_exists d w0) →
  os_path_exists (temp_folder sid) w = true →
  plan_steps sid out_set seq_in seq_out prev steps w = (instances, w') →
  w' = Nat.iter (temp_count out_set steps) (λ w0, (uuid4 w0).2) w ∧
  os_path_exists (temp_folder sid) w' = true.
Proof.
  intros Hdraw. revert prev w instances.
  induction steps as [|s steps IH]; intros prev w instances Hex;
    cbn [plan_steps].
  - by intros [= <- <-].
  - unfold plan_step.
    destruct (generate_paths sid (set_iter (output_file_set s ∖ out_set)) w)
      as [generated w1] eqn:Hgen.
    destruct (generate_paths_world_existing sid
                (set_iter (output_file_set s ∖ out_set)) ∅ w Hdraw Hex)
      as [Hw1 Hex1].
    unfold generate_paths in Hgen. rewrite Hgen in Hw1. cbn [snd] in Hw1.
    rewrite length_set_iter in Hw1, Hex1. rewrite <-Hw1 in Hex1.
    destruct (plan_steps sid out_set seq_in seq_out _ steps w1)
      as [rest w2] eqn:Hrest.
    intros [= <- <-]. destruct (IH _ _ _ Hex1 Hrest) as [-> Hex2].
    split; [|done].
    rewrite temp_count_cons, (Nat.add_comm (size _)), Nat.iter_add.
    by rewrite <-Hw1.
Qed.

(** X11. The temporary folder is created at most once in a run, and
    only when it is needed.  On a filesystem where a created folder exists
    and drawing an identifier creates and removes nothing, planning a run
    with [n] internal intermediates does the following after it has drawn
    the run identifier: nothing when [n] is 0; otherwise it creates the
    folder of the run if it is not there, draws [n] identifiers, and
    leaves the folder in place. *)
Theorem temp_folder_created_once steps (out_set : gset string)
    (input_files output_files : gmap string FileRef) (w w' : World)
    instances :
  (∀ d w0, os_path_exists d (os_mkdir d w0) = true) →
  (∀ d w0, os_path_exists d (uuid4 w0).2 = os_path_exists d w0) →
  build_instances steps out_set input_files output_files w
  = (instances, w') →
  (temp_count out_set steps = 0%nat → w' = (uuid4 w).2) ∧
  (temp_count out_set steps ≠ 0%nat →
   w' = Nat.iter (temp_count out_set steps) (λ w0, (uuid4 w0).2)
          (if os_path_exists (temp_folder (uuid4 w).1) (uuid4 w).2
           then (uuid4 w).2
           else os_mkdir (temp_folder (uuid4 w).1) (uuid4 w).2) ∧
   os_path_exists (temp_folder (uuid4 w).1) w' = true).
Proof.
  intros Hmk Hdraw. unfold build_instances.
  destruct (uuid4 w) as [sid w0]. cbn [fst snd].
  generalize (∅ : gmap string string) at 1. revert w0 instances.
  induction steps as [|s steps IH]; intros w0 instances prev;
    cbn [plan_steps].
  - intros [= <- <-]. split; [done|]. by intros [].
  - unfold plan_step.
    destruct (generate_paths sid (set_iter (output_file_set s ∖ out_set)) w0)
      as [generated w1] eqn:Hgen.
    destruct (plan_steps sid out_set _ _ _ steps w1)
      as [rest w2] eqn:Hrest.
    intros [= <- <-].
    rewrite temp_count_cons.
    destruct (decide (size (output_file_set s ∖ out_set) = 0%nat)) as [Hz|Hnz].
    + (* this step allocates nothing *)
      rewrite Hz, Nat.add_0_l.
      assert (w1 = w0) as ->.
      { apply size_empty_iff in Hz. apply leibniz_equiv in Hz.
        rewrite (set_iter_empty _ Hz) in Hgen. by injection Hgen as _ <-. }
      by eapply IH.
    + (* this step makes the first allocation *)
      destruct (generate_paths_world sid
                  (set_iter (output_file_set s ∖ out_set)) w0 Hmk Hdraw)
        as [Hw1 Hex1].
      { intros Hnil. apply Hnz. by rewrite <-length_set_iter, Hnil. }
      rewrite Hgen in Hw1, Hex1. cbn [snd] in Hw1, Hex1.
      rewrite length_set_iter in Hw1.
      destruct (plan_steps_world_existing sid _ _ _ _ _ _ _ _ Hdraw Hex1 Hrest)
        as [-> Hex2].
      split; [lia|]. intros _. split; [|done].
      rewrite (Nat.add_comm (size _)), Nat.iter_add. by rewrite <-Hw1.
Qed.

(** X12. A temporary path tells its run and its file apart from all
    others: when two allocations return the same path, they are
    allocations of the same run identifier and [uuid4] returned the same
    identifier to both. *)
Theorem temp_path_identifies sid1 sid2 (w1 w1' w2 w2' : World) p :
  _generate_temp_filename sid1 w1 = (p, w1') →
  _generate_temp_filename sid2 w2 = (p, w2') →
  sid1 = sid2 ∧
  ∃ u (v1 v2 : World), uuid4 v1 = (u, w1') ∧ uuid4 v2 = (u, w2').
Proof.
  rewrite !_generate_temp_filename_eq.
  set (v1 := if os_path_exists (temp_folder sid1) w1 then w1
             else os_mkdir (temp_folder sid1) w1).
  set (v2 := if os_path_exists (temp_folder sid2) w2 then w2
             else os_mkdir (temp_folder sid2) w2).
  destruct (uuid4 v1) as [u1 x1] eqn:Hu1.
  destruct (uuid4 v2) as [u2 x2] eqn:Hu2.
  cbn [fst snd]. intros Hp1 Hp2.
  assert (x1 = w1') as -> by (by apply (f_equal snd) in Hp1).
  assert (x2 = w2') as -> by (by apply (f_equal snd) in Hp2).
  apply (f_equal fst) in Hp1, Hp2. cbn [fst] in Hp1, Hp2.
  rewrite <-Hp2 in Hp1. clear Hp2. unfold temp_folder in Hp1.
  rewrite !string_app_assoc in Hp1.
  apply string_app_inv_head in Hp1.
  apply string_app_inj_length in Hp1 as [Hsid Hu];
    [|by rewrite !uuid_str_length].
  apply uuid_str_inj in Hsid as ->.
  apply string_app_inv_head, uuid_str_inj in Hu as ->.
  split; [done|]. by exists u2, v1, v2.
Qed.

(** ** The runner *)

(** X13. Building a list of instances in two parts: the second part is
    built on the world the first part left, and not at all when a build of
    the first part raised. *)
Theorem run_instances_app (instances1 instances2 : list StepInstance)
    (w : World) :
  run_instances (instances1 ++ instances2) w
  = match run_instances instances1 w with
    | (w', None) => run_instances instances2 w'
    | (w', Some e) => (w', Some e)
    end.
Proof.
  revert w. induction instances1 as [|instance rest IH]; intros w;
    [done|].
  cbn [app run_instances].
  destruct (build instance true w) as [w1 [e|]]; [done | apply IH].
Qed.

End Further.

(** * The reference run

    The claims at concrete inputs, evaluated on the reference runtime. *)
Module Examples.
Import Reference.

Ltac by_decide := refine (bool_decide_unpack _ _); vm_compute; exact I.

Lemma sequence_AB : sequence [step_A; step_B] ∅ = Ok seq_AB.
Proof. reflexivity. Qed.

Lemma sequence_AB_exposed :
  sequence [step_A; step_B] {["clean"]} = Ok seq_AB_exposed.
Proof. reflexivity. Qed.

Lemma sequence_AFD : sequence [step_A; step_F; step_D] ∅ = Ok seq_AFD.
Proof. reflexivity. Qed.

Lemma scope_of_AB : _build_lexical_scope [step_A; step_B] = Ok scope_AB.
Proof. vm_compute. reflexivity. Qed.

Lemma sequence_interface_witness :
  (∃ scope,
     _build_lexical_scope [step_A; step_B] = Ok scope ∧
     (∀ t, t ∈ input_file_set seq_AB
           ↔ ∃ ref, scope !! t = Some ref ∧ ref.1 = (-1)%Z) ∧
     (∀ t, t ∈ output_file_set seq_AB
           ↔ (∃ ref, scope !! t = Some ref ∧ ref.2 = 0%Z) ∨ t ∈ (∅ : gset string))) ∧
  (∃ seq,
     sequence [step_A; step_B] ∅ = Ok seq ∧
     input_file_set seq = {["raw"]} ∧ output_file_set seq = {["report"]}).
Proof.
  split.
  - apply (proj1 sequence_interface [step_A; step_B] ∅ seq_AB).
    + simpl. lia.
    + reflexivity.
  - apply (proj2 sequence_interface step_A step_B); reflexivity.
Defined.

(** C2, as stated, at a run of [A, B] that is also given an external
    path for clean: B reads clean from the temporary file that A was
    given for it, not from the external path. *)
Lemma preceding_output_wins :
  sequence [step_A; step_B] ∅ = Ok seq_AB ∧
  files_in_clean !! "clean" = Some (mkFileRef "/d/EXT_clean.csv") ∧
  ∃ instance_A instance_B,
    (build_instances [step_A; step_B] (output_file_set seq_AB)
       files_in_clean files_out initial).1 = [instance_A; instance_B] ∧
    definition instance_B = step_B ∧
    "clean" ∈ input_file_set step_B ∧
    output_paths instance_A !! "clean" = Some temp_1 ∧
    input_paths instance_B !! "clean" = Some temp_1 ∧
    input_paths instance_B !! "clean" ≠ Some "/d/EXT_clean.csv".
Proof.
  split; [reflexivity|]. split; [reflexivity|].
  exists (mkStepInstance step_A {["raw" := "/d/raw.csv"]}
            {["clean" := temp_1]}),
         (mkStepInstance step_B {["clean" := temp_1]}
            {["report" := "/d/out.csv"]}).
  split; [reflexivity|]. split; [reflexivity|]. split; [by_decide|].
  split; [reflexivity|]. split; [reflexivity|]. discriminate.
Qed.

Lemma input_path_resolution_witness :
  (∃ instance_A instance_B,
     plan_AB.1 = [instance_A; instance_B] ∧
     definition instance_A = step_A ∧ definition instance_B = step_B ∧
     input_paths instance_A !! "raw" = Some "/d/raw.csv" ∧
     output_paths instance_A !! "clean" = Some temp_1 ∧
     input_paths instance_B !! "clean" = output_paths instance_A !! "clean") ∧
  (* with an external path for clean as well, B still reads what A wrote *)
  (∃ instance_A instance_B,
     (build_instances [step_A; step_B] (output_file_set seq_AB)
        files_in_clean files_out initial).1 = [instance_A; instance_B] ∧
     input_paths instance_B !! "clean" = output_paths instance_A !! "clean").
Proof.
  split.
  - exists (mkStepInstance step_A {["raw" := "/d/raw.csv"]}
              {["clean" := temp_1]}),
           (mkStepInstance step_B {["clean" := temp_1]}
              {["report" := "/d/out.csv"]}).
    split; [reflexivity|].
    destruct (input_path_resolution [step_A; step_B] ∅ seq_AB
                files_in files_out initial plan_AB.2 plan_AB.1
                0 step_A (mkStepInstance step_A {["raw" := "/d/raw.csv"]}
                            {["clean" := temp_1]}) "raw")
      as (_ & HdefA & HA & _);
      [simpl; lia | reflexivity | reflexivity | reflexivity | reflexivity
      | by_decide |].
    destruct (input_path_resolution [step_A; step_B] ∅ seq_AB
                files_in files_out initial plan_AB.2 plan_AB.1
                1 step_B (mkStepInstance step_B {["clean" := temp_1]}
                            {["report" := "/d/out.csv"]}) "clean")
      as (_ & HdefB & HB & _);
      [simpl; lia | reflexivity | reflexivity | reflexivity | reflexivity
      | by_decide |].
    split; [exact HdefA|]. split; [exact HdefB|]. split; [exact HA|].
    split; [reflexivity | exact HB].
  - exists (mkStepInstance step_A {["raw" := "/d/raw.csv"]}
              {["clean" := temp_1]}),
           (mkStepInstance step_B {["clean" := temp_1]}
              {["report" := "/d/out.csv"]}).
    split; [reflexivity|].
    destruct (input_path_resolution [step_A; step_B] ∅ seq_AB
                files_in_clean files_out initial plan_AB.2
                [mkStepInstance step_A {["raw" := "/d/raw.csv"]}
                   {["clean" := temp_1]};
                 mkStepInstance step_B {["clean" := temp_1]}
                   {["report" := "/d/out.csv"]}]
                1 step_B (mkStepInstance step_B {["clean" := temp_1]}
                            {["report" := "/d/out.csv"]}) "clean")
      as (_ & _ & HB & _);
      [simpl; lia | reflexivity | reflexivity | reflexivity | reflexivity
      | by_decide |].
    exact HB.
Defined.


(** C4, on the code.  The steps A, M and C compose: the resolver
    accepts that C reads clean, which A produced two steps earlier.  In a
    run that is given a path for each tag of the input and output sets,
    the planner hands C a path for mid and none for clean. *)
Theorem planner_misses_earlier_producer :
  ∃ seq,
    sequence [step_A; step_M; step_C] ∅ = Ok seq ∧
    dom files_in = input_file_set seq ∧
    dom files_out = output_file_set seq ∧
    ∃ instance,
      (build_instances [step_A; step_M; step_C] (output_file_set seq)
         files_in files_out initial).1 !! 2 = Some instance ∧
      definition instance = step_C ∧
      "clean" ∈ input_file_set step_C ∧
      input_paths instance !! "clean" = None ∧
      is_Some (input_paths instance !! "mid").
Proof.
  eexists. split; [reflexivity|]. split; [reflexivity|].
  split; [reflexivity|]. eexists. split; [reflexivity|].
  split; [reflexivity|]. split; [by_decide|]. split; [reflexivity|].
  eexists. reflexivity.
Qed.

Lemma script_fail_fast_witness :
  (∃ instances w0,
     build_instances [step_A; step_F; step_D] (output_file_set seq_AFD)
       files_in files_out initial = (instances, w0) ∧
     definition <$> instances = [step_A; step_F; step_D] ∧
     ((∃ w', builds_in_order instances w0 w' ∧
             script seq_AFD files_in files_out initial = (w', None)) ∨
      (∃ pre instance post w_i w' e,
         instances = (pre ++ instance :: post)%list ∧
         builds_in_order pre w0 w_i ∧
         build instance true w_i = (w', Some e) ∧
         script seq_AFD files_in files_out initial = (w', Some e)))) ∧
  (* the build of F raises, and D is never built *)
  (script seq_AFD files_in files_out initial).2
  = Some (StepError "F" "boom") ∧
  log (script seq_AFD files_in files_out initial).1 = ["A"; "F"].
Proof.
  split.
  - apply (script_fail_fast [step_A; step_F; step_D] ∅ seq_AFD).
    + simpl. lia.
    + reflexivity.
  - split; reflexivity.
Defined.

(** The error of a conflict carries the class [BakerError]. *)
Lemma conflict_error_is_generic :
  sequence [step_X1; step_X2] ∅
  = Raise (BakerError "Multiple steps in sequence generate output tag x").
Proof. reflexivity. Qed.



(** C7, as stated, at two producers of x and no exposed tag:
    composition raises, and no tag is exposed at all. *)
Lemma conflict_raises_without_exposure :
  (∃ e, sequence [step_X1; step_X2] ∅ = Raise e) ∧
  ∀ scope t, ¬ offending scope ∅ t.
Proof.
  split; [eexists; reflexivity|].
  intros scope t [Ht _]. by apply not_elem_of_empty in Ht.
Qed.

Lemma sequence_exposure_witness :
  _build_lexical_scope [step_A; step_B] = Ok scope_AB ∧
  ((∃ e, sequence [step_A; step_B] {["raw"]} = Raise e)
   ↔ ∃ t, offending scope_AB {["raw"]} t) ∧
  (∀ e, sequence [step_A; step_B] {["raw"]} = Raise e →
     e = BakerError (expose_message (join ", " (set_iter {["raw"]}))) ∧
     ∀ t, offending scope_AB {["raw"]} t →
          ∃ before after,
            join ", " (set_iter {["raw"]}) = before ++ t ++ after).
Proof.
  split; [exact scope_of_AB|].
  apply (sequence_exposure [step_A; step_B] {["raw"]} scope_AB).
  - simpl. lia.
  - exact scope_of_AB.
Defined.

Lemma runs_do_not_share_temp_paths_witness :
  (uuid4 initial).1 ≠ (uuid4 later).1 ∧
  temp_folder (uuid4 initial).1 ≠ temp_folder (uuid4 later).1 ∧
  ∀ i1 i2 instance1 instance2 t1 t2 p1 p2,
    plan_AB.1 !! i1 = Some instance1 →
    plan_AB_later.1 !! i2 = Some instance2 →
    t1 ∉ output_file_set seq_AB → t2 ∉ output_file_set seq_AB →
    output_paths instance1 !! t1 = Some p1 →
    output_paths instance2 !! t2 = Some p2 →
    (∃ u1, p1 = temp_folder (uuid4 initial).1 ++ "/" ++ uuid_str u1) ∧
    (∃ u2, p2 = temp_folder (uuid4 later).1 ++ "/" ++ uuid_str u2) ∧
    p1 ≠ p2.
Proof.
  assert ((uuid4 initial).1 ≠ (uuid4 later).1) as Hne.
  { intros Heq. apply (f_equal uuid_int) in Heq. vm_compute in Heq.
    discriminate. }
  split; [exact Hne|].
  apply (runs_do_not_share_temp_paths [step_A; step_B] ∅ seq_AB
           files_in files_out files_in files_out
           initial plan_AB.2 later plan_AB_later.2
           plan_AB.1 plan_AB_later.1).
  - simpl. lia.
  - reflexivity.
  - reflexivity.
  - reflexivity.
  - reflexivity.
  - reflexivity.
  - exact Hne.
Defined.

Lemma sequence_leaves_arguments_witness :
  ((o_sequence 1 2 store_AB).1 = sequence [step_A; step_B] ∅ ∧
   (o_sequence 1 2 store_AB).2 !! 1%positive
   = Some (ObjList [step_A; step_B]) ∧
   (o_sequence 1 2 store_AB).2 !! 2%positive = Some (ObjSet ∅) ∧
   store_AB ⊆ (o_sequence 1 2 store_AB).2) ∧
  ((o_calls 2 [1; 1]%positive store_AB).2 !! 2%positive = Some (ObjSet ∅) ∧
   Forall2 (λ c r, ∃ steps, store_AB !! c = Some (ObjList steps) ∧
                            r = sequence steps ∅)
     [1; 1]%positive (o_calls 2 [1; 1]%positive store_AB).1).
Proof.
  split.
  - apply (proj1 sequence_leaves_arguments 1%positive 2%positive
             [step_A; step_B] ∅ store_AB); reflexivity.
  - apply (proj2 sequence_leaves_arguments 2%positive [1; 1]%positive
             store_AB); [reflexivity|].
    repeat constructor; exists [step_A; step_B]; reflexivity.
Defined.

End Examples.

(** * The further properties on the reference run *)
Module FurtherExamples.
Import Reference.

Ltac by_decide := refine (bool_decide_unpack _ _); vm_compute; exact I.

Lemma scope_AB_resolved : _build_lexical_scope [step_A; step_B] = Ok scope_AB.
Proof. vm_compute. reflexivity. Qed.

Lemma plan_AB_eq :
  build_instances [step_A; step_B] (output_file_set seq_AB)
    files_in files_out initial = (plan_AB.1, plan_AB.2).
Proof. reflexivity. Qed.

Lemma plan_AB_exposed_eq :
  build_instances [step_A; step_B] (output_file_set seq_AB_exposed)
    files_in files_out_exposed initial
  = (plan_AB_exposed.1, plan_AB_exposed.2).
Proof. reflexivity. Qed.

(** The two laws of the filesystem, on the reference runtime. *)
Lemma reference_mkdir_exists (d : string) (w : world) :
  os_path_exists d (os_mkdir d w) = true.
Proof. apply bool_decide_eq_true. simpl. set_solver. Qed.

Lemma reference_draw_keeps (d : string) (w : world) :
  os_path_exists d (uuid4 w).2 = os_path_exists d w.
Proof. reflexivity. Qed.

Lemma scope_resolves_iff_no_conflict_witness :
  ((∃ scope, _build_lexical_scope [step_A; step_B] = Ok scope)
   ↔ ¬ has_conflict [step_A; step_B]) ∧
  ∃ pre step post t,
    [step_X1; step_X2] = (pre ++ step :: post)%list ∧
    ¬ has_conflict pre ∧
    conflict_at pre step t ∧
    BakerError (conflict_message "x") = BakerError (conflict_message t).
Proof.
  split.
  - apply (proj1 (scope_resolves_iff_no_conflict [step_A; step_B])).
  - apply (proj2 (scope_resolves_iff_no_conflict [step_X1; step_X2])).
    reflexivity.
Defined.

Lemma resolved_scope_entries_witness :
  (is_Some (scope_AB !! "clean")
   ↔ consumed_by [step_A; step_B] "clean" ∨
     produced_by [step_A; step_B] "clean") ∧
  (∀ ref, scope_AB !! "clean" = Some ref →
     ref.2 = Z.of_nat (consumers "clean" [step_A; step_B]) ∧
     (ref.1 = (-1)%Z ↔ ¬ produced_by [step_A; step_B] "clean") ∧
     (ref.1 ≠ (-1)%Z →
      ∃ k step, ref.1 = Z.of_nat k ∧ [step_A; step_B] !! k = Some step ∧
                "clean" ∈ output_file_set step)).
Proof.
  apply (resolved_scope_entries [step_A; step_B] scope_AB).
  exact scope_AB_resolved.
Defined.

Lemma data_flows_forward_witness :
  ("clean" ∈ output_file_set step_B → 1%nat = 0%nat) ∧
  ("clean" ∈ input_file_set step_B → (0 < 1)%nat).
Proof.
  apply (data_flows_forward [step_A; step_B] scope_AB 1 0 step_B step_A
           "clean").
  - exact scope_AB_resolved.
  - reflexivity.
  - reflexivity.
  - by_decide.
Defined.

Lemma sequence_composes_iff_witness :
  (∃ seq, sequence [step_A; step_B] {["clean"]} = Ok seq)
  ↔ ¬ has_conflict [step_A; step_B] ∧
    ∀ t, t ∈ ({["clean"]} : gset string) → produced_by [step_A; step_B] t.
Proof.
  apply (sequence_composes_iff [step_A; step_B] {["clean"]}).
  simpl. lia.
Defined.

Lemma sequence_interface_from_steps_witness :
  (∀ t, t ∈ input_file_set seq_AB
        ↔ consumed_by [step_A; step_B] t ∧ ¬ produced_by [step_A; step_B] t) ∧
  (∀ t, t ∈ output_file_set seq_AB
        ↔ (produced_by [step_A; step_B] t ∧ ¬ consumed_by [step_A; step_B] t)
          ∨ t ∈ (∅ : gset string)) ∧
  input_file_set seq_AB ## output_file_set seq_AB ∧
  (∀ t, t ∈ output_file_set seq_AB → produced_by [step_A; step_B] t).
Proof.
  apply (sequence_interface_from_steps [step_A; step_B] ∅ seq_AB).
  - simpl. lia.
  - reflexivity.
Defined.

Lemma exposure_only_adds_outputs_witness :
  ∃ seq',
    sequence [step_A; step_B] ∅ = Ok seq' ∧
    input_file_set seq' = input_file_set seq_AB_exposed ∧
    output_file_set seq' ∪ {["clean"]} = output_file_set seq_AB_exposed.
Proof.
  apply (exposure_only_adds_outputs [step_A; step_B] {["clean"]} ∅
           seq_AB_exposed).
  - simpl. lia.
  - reflexivity.
  - apply empty_subseteq.
Defined.

Lemma planned_paths_within_declared_tags_witness :
  length plan_AB.1 = length [step_A; step_B] ∧
  ∀ i instance, plan_AB.1 !! i = Some instance →
    ∃ step, [step_A; step_B] !! i = Some step ∧
            definition instance = step ∧
            dom (input_paths instance) ⊆ input_file_set step ∧
            dom (output_paths instance) ⊆ output_file_set step.
Proof.
  apply (planned_paths_within_declared_tags [step_A; step_B]
           (output_file_set seq_AB) files_in files_out initial plan_AB.2).
  exact plan_AB_eq.
Defined.

Lemma outputs_feed_next_step_witness :
  input_paths (mkStepInstance step_B {["clean" := temp_1]}
                 {["report" := "/d/out.csv"]}) !! "clean" = Some temp_1.
Proof.
  apply (outputs_feed_next_step [step_A; step_B] (output_file_set seq_AB)
           files_in files_out initial plan_AB.2 plan_AB.1 0
           (mkStepInstance step_A {["raw" := "/d/raw.csv"]}
              {["clean" := temp_1]})
           (mkStepInstance step_B {["clean" := temp_1]}
              {["report" := "/d/out.csv"]})
           step_B "clean" temp_1).
  - exact plan_AB_eq.
  - reflexivity.
  - reflexivity.
  - reflexivity.
  - by_decide.
  - reflexivity.
Defined.

Lemma plan_complete_iff_witness :
  dom (output_paths (mkStepInstance step_B {["clean" := temp_1]}
                       {["report" := "/d/out.csv"]}))
  = output_file_set step_B ∧
  (dom (input_paths (mkStepInstance step_B {["clean" := temp_1]}
                       {["report" := "/d/out.csv"]}))
   = input_file_set step_B
   ↔ ∀ t, t ∈ input_file_set step_B →
          t ∈ dom files_in ∨
          ∃ j before, 1%nat = S j ∧ [step_A; step_B] !! j = Some before ∧
                      t ∈ output_file_set before).
Proof.
  apply (plan_complete_iff [step_A; step_B] (output_file_set seq_AB)
           files_in files_out initial plan_AB.2 plan_AB.1 1 step_B).
  - reflexivity.
  - exact plan_AB_eq.
  - reflexivity.
  - reflexivity.
Defined.

Lemma no_intermediates_no_temp_files_witness :
  plan_AB_exposed.2 = (uuid4 initial).2 ∧
  ∀ i instance t p,
    plan_AB_exposed.1 !! i = Some instance →
    output_paths instance !! t = Some p →
    ∃ ref, files_out_exposed !! t = Some ref ∧ p = path ref.
Proof.
  apply (no_intermediates_no_temp_files [step_A; step_B]
           (output_file_set seq_AB_exposed) files_in files_out_exposed
           initial).
  - intros step [->|[->|Hnil]%elem_of_cons]%elem_of_cons.
    + intros t Ht. apply elem_of_list_to_set in Ht.
      apply list_elem_of_singleton in Ht as ->. by_decide.
    + intros t Ht. apply elem_of_list_to_set in Ht.
      apply list_elem_of_singleton in Ht as ->. by_decide.
    + by apply elem_of_nil in Hnil.
  - exact plan_AB_exposed_eq.
Defined.

Lemma temp_folder_created_once_witness :
  (temp_count (output_file_set seq_AB) [step_A; step_B] = 0%nat →
   plan_AB.2 = (uuid4 initial).2) ∧
  (temp_count (output_file_set seq_AB) [step_A; step_B] ≠ 0%nat →
   plan_AB.2
   = Nat.iter (temp_count (output_file_set seq_AB) [step_A; step_B])
       (λ w0, (uuid4 w0).2)
       (if os_path_exists (temp_folder (uuid4 initial).1) (uuid4 initial).2
        then (uuid4 initial).2
        else os_mkdir (temp_folder (uuid4 initial).1) (uuid4 initial).2) ∧
   os_path_exists (temp_folder (uuid4 initial).1) plan_AB.2 = true).
Proof.
  apply (temp_folder_created_once [step_A; step_B] (output_file_set seq_AB)
           files_in files_out initial plan_AB.2 plan_AB.1).
  - exact reference_mkdir_exists.
  - exact reference_draw_keeps.
  - exact plan_AB_eq.
Defined.

Lemma temp_path_identifies_witness :
  uuid_of 5 = uuid_of 5 ∧
  ∃ u (v1 v2 : world),
    uuid4 v1 = (u, (_generate_temp_filename (uuid_of 5) initial).2) ∧
    uuid4 v2
    = (u, (_generate_temp_filename (uuid_of 5) (mkWorld ∅ 0 ["x"])).2).
Proof.
  apply (temp_path_identifies (H:=runtime) (uuid_of 5) (uuid_of 5)
           initial _ (mkWorld ∅ 0 ["x"]) _
           (_generate_temp_filename (H:=runtime) (uuid_of 5) initial).1);
    reflexivity.
Defined.

Lemma nested_sequence_interface_witness :
  ∃ inner nested,
    sequence [step_A; step_M] ∅ = Ok inner ∧
    sequence [inner; step_D] ∅ = Ok nested ∧
    input_file_set nested = {["raw"]} ∧
    output_file_set nested = {["report"]}.
Proof.
  refine (nested_sequence_interface [step_A; step_M] [step_D]
            (mkStepDefinition {["raw"]} {["report"]}
               (Sequence_script [step_A; step_M; step_D] {["report"]}))
            _ _ _ _).
  - simpl. lia.
  - simpl. lia.
  - reflexivity.
  - intros t (step & Hstep & Ht) [_ (step' & Hstep' & Ht')].
    apply list_elem_of_singleton in Hstep as ->.
    apply elem_of_list_to_set, list_elem_of_singleton in Ht as ->.
    apply elem_of_cons in Hstep' as [->|Hstep'].
    + apply elem_of_list_to_set, list_elem_of_singleton in Ht'. discriminate.
    + apply list_elem_of_singleton in Hstep' as ->.
      apply elem_of_list_to_set, list_elem_of_singleton in Ht'. discriminate.
Defined.

Lemma sequence_errors_witness :
  ([step_X1; step_X2] = [] ∧
   BakerError (conflict_message "x")
   = BakerError "Cannot sequence fewer than 1 event") ∨
  ((2 ≤ length [step_X1; step_X2])%nat ∧
   ∃ pre step post t,
     [step_X1; step_X2] = (pre ++ step :: post)%list ∧ ¬ has_conflict pre ∧
     conflict_at pre step t ∧
     BakerError (conflict_message "x") = BakerError (conflict_message t)) ∨
  ((2 ≤ length [step_X1; step_X2])%nat ∧ ¬ has_conflict [step_X1; step_X2] ∧
   (∃ t, t ∈ (∅ : gset string) ∧ ¬ produced_by [step_X1; step_X2] t) ∧
   BakerError (conflict_message "x")
   = BakerError (expose_message (join ", " (set_iter ∅)))).
Proof.
  apply (sequence_errors [step_X1; step_X2] ∅).
  reflexivity.
Defined.

End FurtherExamples.
